(** * pocket-mcp proxy server: bootstrap, configuration and resolver

    A shallow embedding of the TypeScript sources of the proxy server
    ([config.ts], [auth.ts], [index.ts], [sse.ts]) together with a model of
    the aggregation core ([mcp-proxy.ts]), and the properties proved of
    them. *)

From Stdlib Require Import ZArith Ascii.
From stdpp Require Import gmap strings list fin_maps.

Local Open Scope Z_scope.

(** ** JavaScript values used by the sources *)

Module Js.

(** Values that the sources throw or catch. *)
Inductive JsError : Type :=
| Error (message : string)
    (* [new Error(message)] *)
| AxiosError (status : option Z) (message : string)
    (* an error for which [axios.isAxiosError] holds; [status] is
       [error.response?.status], absent when no response was received *)
| SystemError (code : string)
    (* a rejected [fs] call: ENOENT, EACCES, EISDIR, ... *)
| SyntaxError (message : string)
    (* thrown by [JSON.parse] *)
| TypeError (message : string).

Definition isAxiosError (e : JsError) : bool :=
  match e with
  | AxiosError _ _ => true
  | _ => false
  end.

(** [error.response?.status], defined on Axios errors only. *)
Definition response_status (e : JsError) : option Z :=
  match e with
  | AxiosError st _ => st
  | _ => None
  end.

(** [error.message] *)
Definition message_of (e : JsError) : string :=
  match e with
  | Error m | AxiosError _ m | SyntaxError m | TypeError m => m
  | SystemError c => c
  end.

(** Truthiness of an optional string: [undefined] and the empty string
    are falsy. *)
Definition truthy (o : option string) : bool :=
  match o with
  | Some s => negb (String.eqb s "")
  | None => false
  end.

(** [o || d] for an optional string [o]. *)
Definition or_else (o : option string) (d : string) : string :=
  match o with
  | Some s => if String.eqb s "" then d else s
  | None => d
  end.

(** [x === n] for an optional number. *)
Definition strict_eq (o : option Z) (n : Z) : bool :=
  match o with
  | Some z => Z.eqb z n
  | None => false
  end.

End Js.
Import Js.

(** ** [config.ts]: the configuration data model *)

Record TransportConfigStdio : Type := {
  command : string;
  args : option (list string);
  env : option (list string)
}.

Record TransportConfigSSE : Type := {
  url : string
}.

Inductive TransportConfig : Type :=
| TransportStdio (t : TransportConfigStdio)   (* [type?: 'stdio'] *)
| TransportSSE (t : TransportConfigSSE).      (* [type: 'sse'] *)

Record ServerConfig : Type := {
  name : string;
  transport : TransportConfig
}.

Record Config : Type := {
  servers : list ServerConfig
}.

(** ** The outside world and the effects of the asynchronous functions *)

(** [auth.ts]: the body of a resolver response, as far as its properties
    are read; [success] is the truthiness of the field. *)
Record AuthResponse : Type := {
  success : bool;
  auth_servers : list ServerConfig;     (* field [servers] *)
  message : option string
}.

(** [response.data] of a 2xx answer: [null] and [undefined] have no
    properties to read. *)
Inductive ResponseData : Type :=
| DataNull
| DataUndefined
| Data (body : AuthResponse).

(** What the sources observe of their environment. *)
Record World : Type := {
  process_env : string → option string;               (* [process.env] *)
  process_cwd : string;                               (* [process.cwd()] *)
  axios_get : string → string → JsError + ResponseData;
    (* [axios.get(url, {headers: {Authorization}})]: the response data of a
       2xx answer, or the rejection *)
  readFile : string → JsError + string;               (* [fs/promises] *)
  JSON_parse : string → JsError + Config;
    (* [JSON.parse], whose value [loadConfig] returns as a [Config] *)
  backend_reachable : string → bool;
    (* whether a Backend Connection to the named backend can be opened *)
  server_connect : nat → option JsError
    (* [server.connect(transport)]: its rejection, if it rejects *)
}.

(** Observable effects, in program order. *)
Inductive Event : Type :=
| HttpGet (url authorization : string)
| ReadFile (path : string)
| ConsoleLog (text : string)
| ConsoleError (label : string) (err : JsError)
| OpenBackend (backend : string)
| CloseBackend (backend : string)
| BackendFailed (backend : string)
| ServerConnect (transport_id : nat)
| ServerClose
| Listen (port : string)
| NotFound (route : string)
| Delivered (transport_id : nat) (body : string)
    (* [handlePostMessage] called on the transport *)
| HandlerRejected (err : JsError)
    (* the promise of a route handler rejected *)
| ProcessExit (code : Z).

(** An asynchronous function either resolves or rejects; its effects are
    logged on the way. *)
Inductive Result (A : Type) : Type :=
| Resolved (a : A)
| Rejected (e : JsError).
Arguments Resolved {A} a.
Arguments Rejected {A} e.

Definition Async (A : Type) : Type := World → list Event * Result A.

Module AsyncM.

Definition ret {A} (a : A) : Async A := λ _, ([], Resolved a).

Definition throw {A} (e : JsError) : Async A := λ _, ([], Rejected e).

Definition bind {A B} (m : Async A) (k : A → Async B) : Async B :=
  λ w,
    match m w with
    | (t1, Resolved a) => let '(t2, r) := k a w in (t1 ++ t2, r)
    | (t1, Rejected e) => (t1, Rejected e)
    end.

(** [try { m } catch (error) { h error }] *)
Definition try_catch {A} (m : Async A) (h : JsError → Async A) : Async A :=
  λ w,
    match m w with
    | (t1, Resolved a) => (t1, Resolved a)
    | (t1, Rejected e) => let '(t2, r) := h e w in (t1 ++ t2, r)
    end.

Definition emit (ev : Event) : Async unit := λ _, ([ev], Resolved tt).

Definition ask {A} (f : World → A) : Async A := λ w, ([], Resolved (f w)).

(** Settle a promise whose outcome the world decides. *)
Definition settle {A} (f : World → JsError + A) : Async A :=
  λ w,
    match f w with
    | inl e => ([], Rejected e)
    | inr a => ([], Resolved a)
    end.

End AsyncM.
Import AsyncM.

#[global] Instance Async_ret : MRet Async := @AsyncM.ret.
#[global] Instance Async_bind : MBind Async := λ A B k m, AsyncM.bind m k.

(** ** [auth.ts] *)

(** [process.env.CLIENT_API_URL || 'http://localhost:8000/api'] *)
Definition CLIENT_API_URL (w : World) : string :=
  or_else (process_env w "CLIENT_API_URL") "http://localhost:8000/api".

(** Reading a property of [response.data]: [null] and [undefined] throw. *)
Definition no_properties (data : ResponseData) : JsError :=
  match data with
  | DataUndefined =>
      TypeError "Cannot read properties of undefined (reading 'success')"
  | _ => TypeError "Cannot read properties of null (reading 'success')"
  end.

Definition properties (data : ResponseData) : Async AuthResponse :=
  match data with
  | Data body => mret body
  | _ => throw (no_properties data)
  end.

Definition authenticateAndGetServers (apiKey : string)
  : Async (list ServerConfig) :=
  try_catch
    (endpoint ← ask (λ w, CLIENT_API_URL w +:+ "/servers");
     emit (HttpGet endpoint ("Bearer " +:+ apiKey));;
     response ← settle (λ w, axios_get w endpoint ("Bearer " +:+ apiKey));
     data ← properties response;
     if negb (success data)
     then throw (Error (or_else (message data) "Auth failed"))
     else mret (auth_servers data))
    (λ error,
       if isAxiosError error then
         if strict_eq (response_status error) 401
         then throw (Error "Invalid API key")
         else if strict_eq (response_status error) 403
         then throw (Error "No permission")
         else throw (Error ("Auth error: " +:+ message_of error))
       else throw error).

(** ** [config.ts] *)

(** [resolve(process.cwd(), 'config.json')] for an absolute, normalised
    working directory. *)
Definition path_resolve (cwd file : string) : string :=
  if String.eqb cwd "/" then "/" +:+ file else cwd +:+ "/" +:+ file.

Definition loadConfig (apiKey : option string) : Async Config :=
  if truthy apiKey then
    try_catch
      (servers ← authenticateAndGetServers (default "" apiKey);
       mret {| servers := servers |})
      (λ error,
         emit (ConsoleError "Auth error with API key:" error);;
         throw error)
  else
    try_catch
      (configPath ← ask (λ w, or_else (process_env w "MCP_CONFIG_PATH")
                                (path_resolve (process_cwd w) "config.json"));
       emit (ConsoleLog ("Load config from: " +:+ configPath));;
       emit (ReadFile configPath);;
       fileContents ← settle (λ w, readFile w configPath);
       settle (λ w, JSON_parse w fileContents))
      (λ error,
         emit (ConsoleError "Error in loading config.json:" error);;
         mret {| servers := [] |}).

(** ** The first await *)

Definition is_request (ev : Event) : bool :=
  match ev with
  | HttpGet _ _ => true
  | _ => false
  end.

Definition is_read (ev : Event) : bool :=
  match ev with
  | ReadFile _ => true
  | _ => false
  end.

(** An asynchronous function runs synchronously up to its first pending
    await.  In [loadConfig] that is the promise of [axios.get] or of
    [readFile]: the events up to and including the call are those of the
    caller's turn, the others follow when the promise has settled. *)
Fixpoint issued (t : list Event) : list Event :=
  match t with
  | [] => []
  | ev :: rest =>
      if is_request ev || is_read ev then [ev] else ev :: issued rest
  end.

Fixpoint settled (t : list Event) : list Event :=
  match t with
  | [] => []
  | ev :: rest => if is_request ev || is_read ev then rest else settled rest
  end.

(** ** [mcp-proxy.ts]: [createServer] and [cleanup] *)

(** Progress of one pending [createServer(apiKey)] call. *)
Inductive Startup : Type :=
| Resolving
    (* awaiting [loadConfig(apiKey)] *)
| Connecting (todo : list ServerConfig) (connected : list string)
    (* descriptors resolved; Backend Connections being opened *)
| Created (connected : list string)
    (* resolved to [{server, cleanup}]; [cleanup] owns [connected] *)
| Failed (e : JsError).
    (* rejected, or the bootstrap's [catch] block ran *)

(** Modelled from the spec: [createServer] of [mcp-proxy.ts] is not among
    the sources.  Following the control flow of the spec (credential, then
    Resolver, then descriptors, then Backend Connections), it awaits
    [loadConfig(apiKey)], whose rejection rejects the call, and then opens
    one Backend Connection per descriptor; a backend that cannot be opened
    is skipped without aborting the others.  The call itself runs
    [loadConfig] up to its first await ([createServer_start]); after that
    each await is one step, so that other callbacks of the process may run
    in between. *)
Definition createServer_start (w : World) (apiKey : option string)
  : list Event :=
  issued (loadConfig apiKey w).1.

Definition createServer_step (w : World) (apiKey : option string)
    (s : Startup) : list Event * Startup :=
  match s with
  | Resolving =>
      match loadConfig apiKey w with
      | (t, Resolved config) => (settled t, Connecting (servers config) [])
      | (t, Rejected e) => (settled t, Failed e)
      end
  | Connecting (d :: todo) connected =>
      if backend_reachable w (name d)
      then ([OpenBackend (name d)], Connecting todo (connected ++ [name d]))
      else ([BackendFailed (name d)], Connecting todo connected)
  | Connecting [] connected => ([], Created connected)
  | Created _ | Failed _ => ([], s)
  end.

(** Backend Connections open after the events of a trace. *)
Definition apply_event (opened : list string) (ev : Event) : list string :=
  match ev with
  | OpenBackend b => opened ++ [b]
  | CloseBackend b => filter (λ x, x ≠ b) opened
  | _ => opened
  end.

Definition opened_after (opened : list string) (t : list Event)
  : list string :=
  foldl apply_event opened t.

(** Modelled from the spec: the [cleanup] returned by [createServer] closes
    every Backend Connection that the call opened. *)
Definition cleanup (connected : list string) : list Event :=
  CloseBackend <$> connected.

Inductive Status : Type :=
| Running
| Exited (code : Z)
    (* [process.exit(code)], or code 1 after a rejection that nothing
       handles *)
| Killed.                 (* ended by a signal that has no listener *)

(** ** [index.ts]: the stdio bootstrap *)

Module Stdio.

Record State : Type := {
  status : Status;
  trace : list Event;
  startup : Startup;
  sigint_handler : option (list string)
    (* the [SIGINT] listener, once installed, with the connections its
       [cleanup] closes *)
}.

Inductive Input : Type :=
| Tick        (* the pending await of [main] settles *)
| Sigint.

Definition apiKey (w : World) : option string :=
  process_env w "MCP_API_KEY".

(** [main()] up to its first await: [apiKey] read, transport built, and
    [createServer(apiKey)] called. *)
Definition init (w : World) : State :=
  {| status := Running; trace := createServer_start w (apiKey w);
     startup := Resolving; sigint_handler := None |}.

(** The [catch] block of [main]. *)
Definition on_error (st : State) (t : list Event) (error : JsError)
  : State :=
  {| status := Exited 1;
     trace := trace st ++ t ++
              [ConsoleError "Server error:" error; ProcessExit 1];
     startup := Failed error;
     sigint_handler := sigint_handler st |}.

(** One turn of the event loop of [index.ts]: the [try] block of [main]
    advances by one settled await, or [SIGINT] arrives.  The listener is
    installed last in the [try] block; before that the signal has its
    default disposition and ends the process.  The [try] block spans
    everything that [main] awaits, so that [main().catch] never runs. *)
Definition step (w : World) (st : State) (i : Input) : State :=
  match status st with
  | Running =>
      match i with
      | Tick =>
          match createServer_step w (apiKey w) (startup st) with
          | (t, Failed error) => on_error st t error
          | (t, Created connected) =>
              match sigint_handler st with
              | Some _ => st
              | None =>
                  (* [await server.connect(transport)] *)
                  match server_connect w 0 with
                  | Some error =>
                      on_error st (t ++ [ServerConnect 0]) error
                  | None =>
                      (* [process.on("SIGINT", ...)] *)
                      {| status := Running;
                         trace := trace st ++ t ++ [ServerConnect 0];
                         startup := Created connected;
                         sigint_handler := Some connected |}
                  end
              end
          | (t, s) =>
              {| status := Running; trace := trace st ++ t; startup := s;
                 sigint_handler := sigint_handler st |}
          end
      | Sigint =>
          match sigint_handler st with
          | None =>
              {| status := Killed; trace := trace st;
                 startup := startup st; sigint_handler := None |}
          | Some connected =>
              (* [await cleanup(); await server.close(); process.exit(0)] *)
              {| status := Exited 0;
                 trace := trace st ++ cleanup connected ++
                          [ServerClose; ProcessExit 0];
                 startup := startup st;
                 sigint_handler := sigint_handler st |}
          end
      end
  | _ => st
  end.

Definition run (w : World) (st : State) (ins : list Input) : State :=
  foldl (step w) st ins.

Definition open_backends (st : State) : list string :=
  opened_after [] (trace st).

End Stdio.

(** ** [sse.ts]: the SSE bootstrap *)

Module Sse.

Record State : Type := {
  status : Status;
  trace : list Event;
  startup : Startup;
  transport : option nat;
    (* [let transport: SSEServerTransport], undefined until assigned *)
  cleanupFunction : option (list string);
    (* [let cleanupFunction], undefined until assigned *)
  routes : bool;
    (* [app.get("/sse")] and [app.post("/message")] are registered *)
  onclose : bool
    (* [server.onclose] is set *)
}.

Inductive Input : Type :=
| Tick                          (* the pending await of [initServer] settles *)
| Sigint
| GetSse (res : nat)            (* [GET /sse]; [res] identifies the response *)
| PostMessage (body : string) (rejection : option JsError)
    (* [POST /message]; [rejection] is what [handlePostMessage] of the
       transport rejects with, if it rejects *)
| ServerClosed.                 (* the MCP server reports that it closed *)

Definition apiKey (w : World) : option string :=
  process_env w "MCP_API_KEY".

(** [process.env.PORT || 3006] *)
Definition PORT (w : World) : string := or_else (process_env w "PORT") "3006".

(** The module body up to the event loop: [initServer()] is started and
    not awaited, so that it runs up to the first await of
    [createServer(apiKey)]; then the application listens, and the [SIGINT]
    listener is installed.  The callback of [app.listen] runs before
    anything that the event loop brings. *)
Definition init (w : World) : State :=
  {| status := Running;
     trace := createServer_start w (apiKey w) ++
              [Listen (PORT w);
               ConsoleLog ("Server listening on port " +:+ PORT w)];
     startup := Resolving;
     transport := None; cleanupFunction := None; routes := false;
     onclose := false |}.

Definition log (st : State) (t : list Event) : State :=
  {| status := status st; trace := trace st ++ t; startup := startup st;
     transport := transport st; cleanupFunction := cleanupFunction st;
     routes := routes st; onclose := onclose st |}.

Definition exit (st : State) (t : list Event) (code : Z) : State :=
  {| status := Exited code; trace := trace st ++ t ++ [ProcessExit code];
     startup := startup st;
     transport := transport st; cleanupFunction := cleanupFunction st;
     routes := routes st; onclose := onclose st |}.

Definition undefined_transport : JsError :=
  TypeError "Cannot read properties of undefined (reading 'handlePostMessage')".

(** The promise of a route handler rejects.  The handlers are [async]
    functions whose promise nothing awaits: the rejection is unhandled and
    ends the process with exit code 1. *)
Definition reject (st : State) (t : list Event) (error : JsError) : State :=
  {| status := Exited 1; trace := trace st ++ t ++ [HandlerRejected error];
     startup := startup st;
     transport := transport st; cleanupFunction := cleanupFunction st;
     routes := routes st; onclose := onclose st |}.

(** One turn of the event loop of [sse.ts]: the [try] block of
    [initServer] advances by one settled await, a request reaches one of
    the two routes, the MCP server calls [server.onclose], or [SIGINT]
    arrives.  Requests that arrive before the routes are registered are
    answered by the application's default handler. *)
Definition step (w : World) (st : State) (i : Input) : State :=
  match status st with
  | Running =>
      match i with
      | Tick =>
          match createServer_step w (apiKey w) (startup st) with
          | (t, Failed error) =>
              (* the [catch] block of [initServer] *)
              {| status := Exited 1;
                 trace := trace st ++ t ++
                   [ConsoleError "Error in server initialization:" error;
                    ProcessExit 1];
                 startup := Failed error;
                 transport := transport st;
                 cleanupFunction := cleanupFunction st;
                 routes := routes st; onclose := onclose st |}
          | (t, Created connected) =>
              (* [cleanupFunction = cleanup; app.get(...); app.post(...)] *)
              {| status := Running; trace := trace st ++ t;
                 startup := Created connected;
                 transport := transport st;
                 cleanupFunction := Some connected;
                 routes := true; onclose := onclose st |}
          | (t, s) =>
              {| status := Running; trace := trace st ++ t; startup := s;
                 transport := transport st;
                 cleanupFunction := cleanupFunction st;
                 routes := routes st; onclose := onclose st |}
          end
      | Sigint =>
          match cleanupFunction st with
          | Some connected => exit st (cleanup connected) 0
          | None => exit st [] 0
          end
      | GetSse res =>
          if routes st then
            (* [transport = new SSEServerTransport("/message", res)] comes
               before [await server.connect(transport)] *)
            match server_connect w res with
            | Some error =>
                {| status := Exited 1;
                   trace := trace st ++
                     [ConsoleLog "Got connection"; ServerConnect res;
                      HandlerRejected error];
                   startup := startup st; transport := Some res;
                   cleanupFunction := cleanupFunction st;
                   routes := routes st; onclose := onclose st |}
            | None =>
                {| status := Running;
                   trace := trace st ++
                     [ConsoleLog "Got connection"; ServerConnect res];
                   startup := startup st; transport := Some res;
                   cleanupFunction := cleanupFunction st;
                   routes := routes st; onclose := true |}
            end
          else log st [NotFound "/sse"]
      | PostMessage body rejection =>
          if routes st then
            match transport st with
            | Some t =>
                (* [await transport.handlePostMessage(req, res)] *)
                match rejection with
                | Some error =>
                    reject st [ConsoleLog "Got message"; Delivered t body]
                      error
                | None =>
                    log st [ConsoleLog "Got message"; Delivered t body]
                end
            | None => reject st [ConsoleLog "Got message"] undefined_transport
            end
          else log st [NotFound "/message"]
      | ServerClosed =>
          if onclose st then
            if bool_decide (process_env w "KEEP_SERVER_OPEN" ≠ Some "1")
            then
              exit st (ConsoleLog "Server closed"
                       :: cleanup (default [] (cleanupFunction st))
                       ++ [ServerClose]) 0
            else log st [ConsoleLog "Server closed"]
          else st
      end
  | _ => st
  end.

Definition run (w : World) (st : State) (ins : list Input) : State :=
  foldl (step w) st ins.

Definition open_backends (st : State) : list string :=
  opened_after [] (trace st).

(** The response of the most recent [GET /sse] among the inputs. *)
Fixpoint latest_client (ins : list Input) : option nat :=
  match ins with
  | [] => None
  | GetSse res :: rest =>
      match latest_client rest with
      | Some r => Some r
      | None => Some res
      end
  | _ :: rest => latest_client rest
  end.

End Sse.

(** * The aggregation core: Capability Aggregator and Request Router *)

(** [mcp-proxy.ts] is not among the sources; the definitions of this part
    follow the data model and the component design of the specification. *)

Module Aggregator.

Inductive Kind : Type := Tool | Resource | Prompt.

#[global] Instance Kind_eq_dec : EqDecision Kind.
Proof. solve_decision. Defined.

(** Modelled from the spec: a capability (tool, resource or prompt) as a
    backend advertises it. *)
Record Capability : Type := {
  cap_kind : Kind;
  cap_id : string;
  cap_metadata : string
}.

(** Modelled from the spec: the CapabilityEntry of the data model. *)
Record CapabilityEntry : Type := {
  aggregatedId : string;
  ownerBackend : string;
  originalId : string;
  kind : Kind;
  metadata : string
}.

(** Modelled from the spec: the aggregatedId is a deterministic
    composition of the backend name and the original id. *)
Class Composition : Type :=
  compose_id : string → string → string.

(** Modelled from the spec: the composition guarantees global uniqueness;
    an aggregatedId determines the backend name and the original id that
    it is composed of. *)
Class UniqueComposition `{Composition} : Prop :=
  compose_id_unique : ∀ b1 o1 b2 o2 : string,
    compose_id b1 o1 = compose_id b2 o2 → b1 = b2 ∧ o1 = o2.

(** The composition of the spec's example, [<backend>::<original>]. *)
Definition separated : Composition :=
  λ backend original, backend +:+ "::" +:+ original.

(** The backend name with [%] and [:] percent-encoded. *)
Fixpoint encode (s : string) : string :=
  match s with
  | EmptyString => EmptyString
  | String a rest =>
      if Ascii.eqb a ":" then "%3A" +:+ encode rest
      else if Ascii.eqb a "%" then "%25" +:+ encode rest
      else String a (encode rest)
  end.

(** The composition of the spec's example with the backend name encoded,
    so that the first separator ends the name. *)
Definition encoded : Composition :=
  λ backend original, encode backend +:+ "::" +:+ original.

Section Catalog.

Context `{Composition}.

(** Modelled from the spec: the CapabilityEntry created for a capability
    of a backend, with its freshly computed aggregatedId. *)
Definition entry_of (backend : string) (c : Capability) : CapabilityEntry :=
  {| aggregatedId := compose_id backend (cap_id c);
     ownerBackend := backend;
     originalId := cap_id c;
     kind := cap_kind c;
     metadata := cap_metadata c |}.

(** Modelled from the spec: the AggregateCatalog, a mapping from
    aggregatedId to CapabilityEntry that keeps the order in which ids were
    first assigned, and the reverse index from backend name to the set of
    its aggregatedIds, whose lines are kept in the order in which the
    backends were inserted. *)
Record AggregateCatalog : Type := {
  entries : list CapabilityEntry;
  index : gmap string (gset string);
  order : list string
}.

Definition empty : AggregateCatalog :=
  {| entries := []; index := ∅; order := [] |}.

Definition ids (c : AggregateCatalog) : list string :=
  aggregatedId <$> entries c.

(** Modelled from the spec: the entry that the mapping holds for an
    aggregatedId. *)
Fixpoint find_entry (id : string) (l : list CapabilityEntry)
  : option CapabilityEntry :=
  match l with
  | [] => None
  | e :: l' => if decide (aggregatedId e = id) then Some e else find_entry id l'
  end.

Definition get (id : string) (c : AggregateCatalog) : option CapabilityEntry :=
  find_entry id (entries c).

(** Modelled from the spec: assignment in the mapping; an id already
    present keeps its place and takes the new entry (the later entry
    overwrites the earlier one), a new id goes last. *)
Fixpoint set_entry (e : CapabilityEntry) (l : list CapabilityEntry)
  : list CapabilityEntry :=
  match l with
  | [] => [e]
  | e' :: l' =>
      if decide (aggregatedId e' = aggregatedId e) then e :: l'
      else e' :: set_entry e l'
  end.

(** The assignments of a list of entries, in order. *)
Definition insert_all (fresh l : list CapabilityEntry)
  : list CapabilityEntry :=
  foldl (λ l e, set_entry e l) l fresh.

(** The aggregatedIds that the reverse index records for a backend. *)
Definition owned (c : AggregateCatalog) (backend : string) : gset string :=
  default ∅ (index c !! backend).

(** Modelled from the spec: pruning a backend removes, through the reverse
    index, the entries recorded for it, and its index line. *)
Definition prune (backend : string) (c : AggregateCatalog) : AggregateCatalog :=
  {| entries := filter (λ e, aggregatedId e ∉ owned c backend) (entries c);
     index := delete backend (index c);
     order := filter (λ b, b ≠ backend) (order c) |}.

(** Modelled from the spec: the merge policy on (re)build of one backend's
    list removes the entries previously owned by the backend, then inserts
    the new set with freshly computed aggregatedIds; a duplicate original
    id overwrites the earlier entry.  A backend that is already in the
    catalog keeps its place among the backends, a new one goes last. *)
Definition merge (backend : string) (caps : list Capability)
    (c : AggregateCatalog) : AggregateCatalog :=
  let pruned := prune backend c in
  let fresh := entry_of backend <$> caps in
  {| entries := insert_all fresh (entries pruned);
     index := <[backend := list_to_set (aggregatedId <$> fresh)]>
                (index pruned);
     order := if decide (backend ∈ order c) then order c
              else order c ++ [backend] |}.

(** Modelled from the spec: the [DuplicateCapability] diagnostics of a
    merge, the original ids that occur again later in the list. *)
Fixpoint duplicates (caps : list Capability) : list string :=
  match caps with
  | [] => []
  | c :: rest =>
      if bool_decide (cap_id c ∈ cap_id <$> rest)
      then cap_id c :: duplicates rest
      else duplicates rest
  end.

(** Modelled from the spec: the order of presentation upstream, backend
    insertion order, then original order within a backend. *)
Definition presented (c : AggregateCatalog) : list CapabilityEntry :=
  b ← order c; filter (λ e, ownerBackend e = b) (entries c).

(** Modelled from the spec: [listAll(kind)], the current ordered sequence
    of the entries of a kind. *)
Definition listAll (k : Kind) (c : AggregateCatalog) : list CapabilityEntry :=
  filter (λ e, kind e = k) (presented c).

(** Modelled from the spec: the updates of the catalog that the Connection
    Supervisor drives, a (re)build of one backend's list or the removal of
    a backend. *)
Inductive Update : Type :=
| Merge (backend : string) (caps : list Capability)
| Prune (backend : string).


Definition apply (c : AggregateCatalog) (u : Update) : AggregateCatalog :=
  match u with
  | Merge b caps => merge b caps c
  | Prune b => prune b c
  end.

(** The catalogs of a session: the initial one and the one after every
    update. *)
Fixpoint session (c : AggregateCatalog) (us : list Update)
  : list AggregateCatalog :=
  c :: match us with
       | [] => []
       | u :: rest => session (apply c u) rest
       end.

(** The backend that the catalog maps an aggregatedId to. *)
Definition owner_of (c : AggregateCatalog) (id : string) : option string :=
  ownerBackend <$> get id c.

(** The representation invariant of the catalog: ids are unique, every
    entry carries the id composed of its owner and original id, the
    reverse index lists exactly the ids of each backend's entries, and its
    lines are those of the backends in the order of insertion. *)
Definition well_formed (c : AggregateCatalog) : Prop :=
  NoDup (ids c) ∧
  Forall (λ e, aggregatedId e = compose_id (ownerBackend e) (originalId e) ∧
               aggregatedId e ∈ owned c (ownerBackend e)) (entries c) ∧
  map_Forall (λ b s, set_Forall (λ id, owner_of c id = Some b) s) (index c) ∧
  NoDup (order c) ∧
  dom (index c) = list_to_set (order c).

#[global] Instance well_formed_dec (c : AggregateCatalog)
  : Decision (well_formed c).
Proof. unfold well_formed. apply _. Defined.


(** Ids are unique and the reverse index records every entry's id for the
    entry's owner. *)
Definition indexed (c : AggregateCatalog) : Prop :=
  NoDup (ids c) ∧
  Forall (λ e, aggregatedId e ∈ owned c (ownerBackend e)) (entries c).

(** The catalog at the end of a session. *)
Definition final (us : list Update) : AggregateCatalog := foldl apply empty us.




(** A tool and sample catalogs. *)
Definition tool (id : string) : Capability :=
  {| cap_kind := Tool; cap_id := id; cap_metadata := "" |}.

Definition two_backends_session : list Update :=
  [Merge "files" [tool "read"; tool "write"];
   Merge "search" [tool "web"; tool "news"]].

Definition two_backends : AggregateCatalog := final two_backends_session.

End Catalog.

(** No [:] occurs in the string. *)
Fixpoint colon_free (s : string) : bool :=
  match s with
  | EmptyString => true
  | String a rest => negb (Ascii.eqb a ":") && colon_free rest
  end.

End Aggregator.

Module Router.
Import Aggregator.

(** Modelled from the spec: the standard error shape of the upstream
    protocol. *)
Record ProtocolError : Type := {
  code : Z;
  text : string
}.

(** Modelled from the spec: what a Backend Connection reports for one
    forwarded call. *)
Inductive Outcome : Type :=
| Replied (result : string)
| Refused (error : ProtocolError)
| NoReply.                       (* the per-request timeout elapses *)

(** The behaviour of the backends: backend name, original id and arguments
    to outcome. *)
Definition Backends : Type := string → string → string → Outcome.

(** Modelled from the spec: a call forwarded to a Backend Connection,
    [invoke(originalId, arguments)] of the connection to [to_backend]. *)
Record Forwarded : Type := {
  to_backend : string;
  to_original : string;
  arguments : string
}.

(** The outcome of [invoke] inside the proxy, tagged with the connection
    that served it. *)
Record Routed : Type := {
  served_by : string;
  outcome : Outcome
}.

Inductive RouterError : Type :=
| UnknownCapability
| RequestTimeout
| BackendError (error : ProtocolError).

Inductive Response : Type :=
| Result (payload : string)
| Failure (error : RouterError).

(** Modelled from the spec: [invoke] of a Backend Connection forwards a
    single call and returns the backend's result or a structured error. *)
Definition invoke (backends : Backends) (call : Forwarded) : Routed :=
  {| served_by := to_backend call;
     outcome := backends (to_backend call) (to_original call)
                  (arguments call) |}.

(** Modelled from the spec: the result or error goes upstream as it is,
    without the name of the backend that served the call. *)
Definition to_upstream (r : Routed) : Response :=
  match outcome r with
  | Replied result => Result result
  | Refused error => Failure (BackendError error)
  | NoReply => Failure RequestTimeout
  end.

(** Modelled from the spec: [handleInvoke] resolves the aggregatedId to
    (backend, original id) through the catalog, whose entry for the id
    records the two parts; a miss is [UnknownCapability]; otherwise it
    forwards once and translates the outcome.  The calls forwarded are
    returned with the response. *)
Definition handleInvoke (backends : Backends) (c : AggregateCatalog)
    (id payload : string) : list Forwarded * Response :=
  match get id c with
  | None => ([], Failure UnknownCapability)
  | Some e =>
      let call := {| to_backend := ownerBackend e;
                     to_original := originalId e; arguments := payload |} in
      ([call], to_upstream (invoke backends call))
  end.

(** Modelled from the spec: [handleList] presents the entries of a kind. *)
Definition handleList (k : Kind) (c : AggregateCatalog) : list string :=
  aggregatedId <$> listAll k c.

End Router.

(** ** Sample worlds *)

Definition files_backend : ServerConfig :=
  {| name := "files";
     transport := TransportStdio
       {| command := "npx"; args := Some ["-y"; "files-mcp"]; env := None |} |}.

Definition search_backend : ServerConfig :=
  {| name := "search";
     transport := TransportSSE {| url := "http://localhost:9000/sse" |} |}.

(** A world without network or configuration file. *)
Definition offline : World :=
  {| process_env := λ _, None;
     process_cwd := "/srv/proxy";
     axios_get := λ _ _, inl (AxiosError None "connect ECONNREFUSED");
     readFile := λ _, inl (SystemError "ENOENT");
     JSON_parse := λ _, inl (SyntaxError "Unexpected end of JSON input");
     backend_reachable := λ _, true;
     server_connect := λ _, None |}.

(** A world in which [MCP_API_KEY] is set and the resolver answers every
    request with [answer]. *)
Definition with_resolver (answer : JsError + ResponseData) : World :=
  {| process_env := λ v, if String.eqb v "MCP_API_KEY" then Some "k-123" else None;
     process_cwd := "/srv/proxy";
     axios_get := λ _ _, answer;
     readFile := λ _, inr "config";
     JSON_parse := λ _, inr {| servers := [search_backend] |};
     backend_reachable := λ _, true;
     server_connect := λ _, None |}.

(** A world without API key whose configuration file lists [files_backend]
    and [search_backend]. *)
Definition with_config_file : World :=
  {| process_env := λ _, None;
     process_cwd := "/srv/proxy";
     axios_get := λ _ _, inl (AxiosError None "connect ECONNREFUSED");
     readFile := λ p, if String.eqb p "/srv/proxy/config.json"
                      then inr "config" else inl (SystemError "ENOENT");
     JSON_parse := λ _, inr {| servers := [files_backend; search_backend] |};
     backend_reachable := λ _, true;
     server_connect := λ _, None |}.

(** ** The typed failures of the Descriptor Resolver boundary *)

Inductive ResolverFailure : Type :=
| InvalidCredential
| Forbidden
| ResolverUnavailable.

(** The failure that a rejection of [authenticateAndGetServers] stands for:
    the three rejections built in its [catch] block, told apart by their
    messages. *)
Definition typed_failure (e : JsError) : option ResolverFailure :=
  match e with
  | Error m =>
      if String.eqb m "Invalid API key" then Some InvalidCredential
      else if String.eqb m "No permission" then Some Forbidden
      else if String.prefix "Auth error: " m then Some ResolverUnavailable
      else None
  | _ => None
  end.

(** The request that [authenticateAndGetServers] sends. *)
Definition resolver_answer (w : World) (apiKey : string)
  : JsError + ResponseData :=
  axios_get w (CLIENT_API_URL w +:+ "/servers") ("Bearer " +:+ apiKey).


(** Backends that echo their arguments, except that ["search"] refuses. *)
Definition echo : Router.Backends :=
  λ backend original payload,
    if String.eqb backend "search"
    then Router.Refused {| Router.code := -32000; Router.text := "index unavailable" |}
    else Router.Replied (original +:+ "(" +:+ payload +:+ ")").

(** ** Invariants of the bootstraps *)

(** Events that neither open nor close a Backend Connection. *)
Definition neutral (ev : Event) : Prop :=
  match ev with
  | OpenBackend _ | CloseBackend _ => False
  | _ => True
  end.

(** The invariant of the stdio bootstrap: the open Backend Connections are
    those that the pending or resolved [createServer] has opened, the
    listener exists exactly once [createServer] has resolved and the
    upstream transport is connected, and exit code 1 comes from the
    [catch] block. *)
Definition stdio_invariant (st : Stdio.State) : Prop :=
  match Stdio.status st with
  | Running =>
      match Stdio.startup st with
      | Resolving =>
          Stdio.open_backends st = [] ∧ Stdio.sigint_handler st = None
      | Connecting _ connected =>
          Stdio.open_backends st = connected ∧ Stdio.sigint_handler st = None
      | Created connected =>
          Stdio.open_backends st = connected ∧
          Stdio.sigint_handler st = Some connected
      | Failed _ => False
      end
  | Exited code => code = 1 → ∃ e, Stdio.startup st = Failed e
  | Killed => Stdio.sigint_handler st = None
  end.

(** The invariant of the SSE bootstrap; exit code 1 comes from the [catch]
    block or from the rejected promise of a route handler. *)
Definition sse_invariant (st : Sse.State) : Prop :=
  match Sse.status st with
  | Running =>
      match Sse.startup st with
      | Resolving =>
          Sse.open_backends st = [] ∧ Sse.cleanupFunction st = None ∧
          Sse.routes st = false ∧ Sse.transport st = None ∧
          Sse.onclose st = false
      | Connecting _ connected =>
          Sse.open_backends st = connected ∧ Sse.cleanupFunction st = None ∧
          Sse.routes st = false ∧ Sse.transport st = None ∧
          Sse.onclose st = false
      | Created connected =>
          Sse.open_backends st = connected ∧
          Sse.cleanupFunction st = Some connected ∧ Sse.routes st = true
      | Failed _ => False
      end
  | Exited code =>
      code = 1 →
      (∃ e, Sse.startup st = Failed e) ∨
      (∃ e, last (Sse.trace st) = Some (HandlerRejected e))
  | Killed => False
  end.


(** ** Further sample worlds and event classes *)

(** A world without API key, with the configuration file of
    [with_config_file], in which [server.connect] rejects. *)
Definition connect_refused : World :=
  {| process_env := λ _, None;
     process_cwd := "/srv/proxy";
     axios_get := λ _ _, inl (AxiosError None "connect ECONNREFUSED");
     readFile := λ p, if String.eqb p "/srv/proxy/config.json"
                      then inr "config" else inl (SystemError "ENOENT");
     JSON_parse := λ _, inr {| servers := [files_backend; search_backend] |};
     backend_reachable := λ _, true;
     server_connect := λ _, Some (Error "Already connected") |}.

(** The world of [with_config_file] with [KEEP_SERVER_OPEN] set to [1]. *)
Definition keep_open : World :=
  {| process_env := λ v, if String.eqb v "KEEP_SERVER_OPEN"
                         then Some "1" else None;
     process_cwd := "/srv/proxy";
     axios_get := λ _ _, inl (AxiosError None "connect ECONNREFUSED");
     readFile := λ p, if String.eqb p "/srv/proxy/config.json"
                      then inr "config" else inl (SystemError "ENOENT");
     JSON_parse := λ _, inr {| servers := [files_backend; search_backend] |};
     backend_reachable := λ _, true;
     server_connect := λ _, None |}.

(** Events that close something: a Backend Connection or the MCP server. *)
Definition closing (ev : Event) : Prop :=
  match ev with
  | CloseBackend _ | ServerClose => True
  | _ => False
  end.

Definition is_error_log (ev : Event) : bool :=
  match ev with
  | ConsoleError _ _ => true
  | _ => false
  end.

(** The path of the configuration file that [loadConfig] reads:
    [process.env.MCP_CONFIG_PATH || resolve(process.cwd(), 'config.json')]. *)
Definition configPath (w : World) : string :=
  or_else (process_env w "MCP_CONFIG_PATH")
    (path_resolve (process_cwd w) "config.json").

(** The requests to the resolver and the file reads among the events. *)
Definition config_events (t : list Event) : list Event :=
  filter (λ ev, is_request ev || is_read ev) t.
#[global] Arguments config_events : simpl never.
(** * Properties of [auth.ts] *)

Section Resolver.

Context (w : World) (apiKey : string).

Lemma authenticate_trace :
  (authenticateAndGetServers apiKey w).1 =
  [HttpGet (CLIENT_API_URL w +:+ "/servers") ("Bearer " +:+ apiKey)].
Proof.
  unfold authenticateAndGetServers, try_catch, mbind, Async_bind,
    AsyncM.bind, ask, emit, settle; simpl.
  destruct (axios_get w _ _) as [err | [| | resp]]; simpl;
    [|reflexivity..|].
  - destruct (isAxiosError err); [|reflexivity].
    destruct (strict_eq (response_status err) 401); [reflexivity|].
    destruct (strict_eq (response_status err) 403); reflexivity.
  - destruct (success resp); reflexivity.
Qed.

Lemma authenticate_resolved (resp : AuthResponse) :
  resolver_answer w apiKey = inr (Data resp) →
  (authenticateAndGetServers apiKey w).2 =
  if success resp then Resolved (auth_servers resp)
  else Rejected (Error (or_else (message resp) "Auth failed")).
Proof.
  unfold resolver_answer, authenticateAndGetServers, try_catch, mbind,
    Async_bind, AsyncM.bind, ask, emit, settle; simpl.
  intros ->; simpl. destruct (success resp); reflexivity.
Qed.

Lemma authenticate_no_body (data : ResponseData) :
  resolver_answer w apiKey = inr data →
  (∀ resp, data ≠ Data resp) →
  (authenticateAndGetServers apiKey w).2 = Rejected (no_properties data).
Proof.
  unfold resolver_answer, authenticateAndGetServers, try_catch, mbind,
    Async_bind, AsyncM.bind, ask, emit, settle; simpl.
  intros -> Hdata. destruct data as [| | resp]; [reflexivity..|].
  by destruct (Hdata resp).
Qed.

Lemma authenticate_rejected (err : JsError) :
  resolver_answer w apiKey = inl err →
  (authenticateAndGetServers apiKey w).2 =
  Rejected
    (if isAxiosError err then
       if strict_eq (response_status err) 401 then Error "Invalid API key"
       else if strict_eq (response_status err) 403 then Error "No permission"
       else Error ("Auth error: " +:+ message_of err)
     else err).
Proof.
  unfold resolver_answer, authenticateAndGetServers, try_catch, mbind,
    Async_bind, AsyncM.bind, ask, emit, settle; simpl.
  intros ->; simpl.
  destruct (isAxiosError err); [|reflexivity].
  destruct (strict_eq (response_status err) 401); [reflexivity|].
  destruct (strict_eq (response_status err) 403); reflexivity.
Qed.

End Resolver.

Lemma prefix_app (p s : string) : String.prefix p (p +:+ s) = true.
Proof.
  induction p as [|c p IH]; simpl.
  - by destruct s.
  - destruct (Ascii.ascii_dec c c); [exact IH | congruence].
Qed.

(** C5, as stated, fails: a 2xx answer whose body has [success: false]
    rejects with the message of the body, here one that is none of
    [InvalidCredential], [Forbidden] and [ResolverUnavailable], and no list
    is returned. *)
Lemma authenticate_unsuccessful_body_untyped :
  let w := with_resolver
             (inr (Data {| success := false; auth_servers := [];
                           message := Some "key revoked" |})) in
  (authenticateAndGetServers "k-123" w).2 = Rejected (Error "key revoked") ∧
  typed_failure (Error "key revoked") = None.
Proof. split; reflexivity. Qed.

(** C5, amended: the resolver call returns the server list of an answer
    whose [success] flag is set; an Axios failure rejects with
    [InvalidCredential] for status 401, [Forbidden] for status 403 and
    [ResolverUnavailable] otherwise; an answer whose [success] flag is
    unset rejects with an [Error] that carries the answer's message,
    ['Auth failed'] by default; an answer whose body is [null] or
    [undefined] rejects with the [TypeError] of reading its [success]
    property; and any other error is rethrown unchanged. *)
Theorem authenticate_outcomes (w : World) (apiKey : string) :
  let outcome := (authenticateAndGetServers apiKey w).2 in
  match resolver_answer w apiKey with
  | inr (Data resp) =>
      if success resp then outcome = Resolved (auth_servers resp)
      else outcome =
           Rejected (Error (or_else (message resp) "Auth failed"))
  | inr DataNull =>
      outcome =
      Rejected
        (TypeError "Cannot read properties of null (reading 'success')")
  | inr DataUndefined =>
      outcome =
      Rejected
        (TypeError "Cannot read properties of undefined (reading 'success')")
  | inl err =>
      if isAxiosError err then
        ∃ e, outcome = Rejected e ∧
             typed_failure e =
             Some (if strict_eq (response_status err) 401
                   then InvalidCredential
                   else if strict_eq (response_status err) 403
                   then Forbidden
                   else ResolverUnavailable)
      else outcome = Rejected err
  end.
Proof.
  simpl. destruct (resolver_answer w apiKey) as [err | [| | resp]] eqn:Hans.
  - rewrite (authenticate_rejected _ _ _ Hans).
    destruct (isAxiosError err); [|reflexivity].
    eexists; split; [reflexivity|].
    destruct (strict_eq (response_status err) 401); [reflexivity|].
    destruct (strict_eq (response_status err) 403); [reflexivity|].
    unfold typed_failure.
    rewrite prefix_app.
    destruct (String.eqb _ "Invalid API key") eqn:E1;
      [apply String.eqb_eq in E1; discriminate|].
    destruct (String.eqb _ "No permission") eqn:E2;
      [apply String.eqb_eq in E2; discriminate|].
    reflexivity.
  - by rewrite (authenticate_no_body _ _ _ Hans).
  - by rewrite (authenticate_no_body _ _ _ Hans).
  - rewrite (authenticate_resolved _ _ _ Hans).
    destruct (success resp); reflexivity.
Qed.

(** * Properties of [config.ts] *)

Ltac unfold_async :=
  unfold try_catch, mbind, mret, Async_bind, Async_ret, AsyncM.bind,
    AsyncM.ret, throw, ask, emit, settle.

(** With an API key, [loadConfig] is the resolver call, with a rejection
    logged and rethrown. *)
Lemma loadConfig_keyed_unfold (w : World) (apiKey : option string) :
  truthy apiKey = true →
  loadConfig apiKey w =
  match authenticateAndGetServers (default "" apiKey) w with
  | (t, Resolved servers) => (t, Resolved {| servers := servers |})
  | (t, Rejected e) =>
      (t ++ [ConsoleError "Auth error with API key:" e], Rejected e)
  end.
Proof.
  intros Hkey. unfold loadConfig. rewrite Hkey.
  unfold try_catch at 1. unfold mbind at 1, Async_bind, AsyncM.bind.
  destruct (authenticateAndGetServers _ w) as [t [s | e]]; simpl.
  - by rewrite app_nil_r.
  - reflexivity.
Qed.

Lemma resolver_answer_ext (w w' : World) (apiKey : string) :
  process_env w' = process_env w → axios_get w' = axios_get w →
  resolver_answer w' apiKey = resolver_answer w apiKey.
Proof.
  unfold resolver_answer, CLIENT_API_URL. by intros -> ->.
Qed.

Lemma authenticate_outcome_ext (w w' : World) (apiKey : string) :
  process_env w' = process_env w → axios_get w' = axios_get w →
  (authenticateAndGetServers apiKey w').2 =
  (authenticateAndGetServers apiKey w).2.
Proof.
  intros Henv Hget.
  pose proof (resolver_answer_ext w w' apiKey Henv Hget) as Hans.
  destruct (resolver_answer w apiKey) as [err | data] eqn:Hw.
  - by rewrite (authenticate_rejected _ _ _ Hw),
      (authenticate_rejected _ _ _ Hans).
  - destruct data as [| | resp].
    + by rewrite (authenticate_no_body _ _ _ Hw),
        (authenticate_no_body _ _ _ Hans).
    + by rewrite (authenticate_no_body _ _ _ Hw),
        (authenticate_no_body _ _ _ Hans).
    + by rewrite (authenticate_resolved _ _ _ Hw),
        (authenticate_resolved _ _ _ Hans).
Qed.

(** C9: when an API key is provided, [loadConfig] never reads the
    configuration file, its result is the resolver's (the server list, or
    the very rejection of the resolver call), and it is the same in every
    world with the same environment variables and resolver, whatever the
    file system holds. *)
Theorem loadConfig_with_key (w : World) (apiKey : option string) :
  truthy apiKey = true →
  (∀ path, ReadFile path ∉ (loadConfig apiKey w).1) ∧
  (loadConfig apiKey w).2 =
    match (authenticateAndGetServers (default "" apiKey) w).2 with
    | Resolved servers => Resolved {| servers := servers |}
    | Rejected e => Rejected e
    end ∧
  (∀ w' : World,
     process_env w' = process_env w → axios_get w' = axios_get w →
     (loadConfig apiKey w').2 = (loadConfig apiKey w).2).
Proof.
  intros Hkey. split; [|split].
  - intros path. rewrite (loadConfig_keyed_unfold _ _ Hkey).
    pose proof (authenticate_trace w (default "" apiKey)) as Ht.
    destruct (authenticateAndGetServers _ w) as [t [s | e]];
      simpl in *; subst t.
    + by intros [=]%list_elem_of_singleton.
    + intros Hin. apply elem_of_cons in Hin as [[=] | Hin].
      by apply list_elem_of_singleton in Hin.
  - rewrite (loadConfig_keyed_unfold _ _ Hkey).
    by destruct (authenticateAndGetServers _ w) as [t [s | e]].
  - intros w' Henv Hget.
    pose proof (authenticate_outcome_ext w w' (default "" apiKey) Henv Hget)
      as Hout.
    rewrite !(loadConfig_keyed_unfold _ _ Hkey).
    destruct (authenticateAndGetServers _ w) as [t [s | e]],
      (authenticateAndGetServers _ w') as [t' [s' | e']];
      simpl in *; congruence.
Qed.

Lemma loadConfig_with_key_witness :
  truthy (Some "k-123") = true ∧
  (loadConfig (Some "k-123")
     (with_resolver (inl (AxiosError (Some 401) "Request failed")))).2 =
  Rejected (Error "Invalid API key").
Proof.
  split; [reflexivity|].
  by rewrite (proj1 (proj2 (loadConfig_with_key
    (with_resolver (inl (AxiosError (Some 401) "Request failed")))
    (Some "k-123") eq_refl))).
Defined.

(** The path that [loadConfig] reads without an API key. *)
Lemma loadConfig_file_unfold (w : World) (apiKey : option string) :
  truthy apiKey = false →
  let configPath := or_else (process_env w "MCP_CONFIG_PATH")
                      (path_resolve (process_cwd w) "config.json") in
  (loadConfig apiKey w).2 =
  Resolved
    match readFile w configPath with
    | inl _ => {| servers := [] |}
    | inr fileContents =>
        match JSON_parse w fileContents with
        | inl _ => {| servers := [] |}
        | inr config => config
        end
    end.
Proof.
  intros Hkey. unfold loadConfig. rewrite Hkey. unfold_async. simpl.
  destruct (readFile w _) as [e | contents]; simpl; [reflexivity|].
  destruct (JSON_parse w contents) as [e | config]; reflexivity.
Qed.

(** C10: when no API key is provided, [loadConfig] always resolves; when
    the file cannot be read or its contents cannot be parsed, it resolves
    to the configuration with the empty server list. *)
Theorem loadConfig_without_key (w : World) (apiKey : option string) :
  truthy apiKey = false →
  let configPath := or_else (process_env w "MCP_CONFIG_PATH")
                      (path_resolve (process_cwd w) "config.json") in
  (∃ config, (loadConfig apiKey w).2 = Resolved config) ∧
  (∀ e, readFile w configPath = inl e →
        (loadConfig apiKey w).2 = Resolved {| servers := [] |}) ∧
  (∀ fileContents e,
     readFile w configPath = inr fileContents →
     JSON_parse w fileContents = inl e →
     (loadConfig apiKey w).2 = Resolved {| servers := [] |}).
Proof.
  intros Hkey configPath.
  rewrite (loadConfig_file_unfold _ _ Hkey). fold configPath.
  split; [eauto | split].
  - by intros e ->.
  - by intros fileContents e -> ->.
Qed.

Lemma loadConfig_without_key_witness :
  truthy None = false ∧
  (loadConfig None offline).2 = Resolved {| servers := [] |}.
Proof.
  split; [reflexivity|].
  exact (proj1 (proj2 (loadConfig_without_key offline None eq_refl))
           (SystemError "ENOENT") eq_refl).
Defined.

(** * Properties of [createServer] and [cleanup] *)

Lemma opened_after_app (l : list string) (t1 t2 : list Event) :
  opened_after l (t1 ++ t2) = opened_after (opened_after l t1) t2.
Proof. apply foldl_app. Qed.

Lemma opened_after_neutral (l : list string) (t : list Event) :
  Forall neutral t → opened_after l t = l.
Proof.
  induction 1 as [|ev t Hev _ IH]; [reflexivity|].
  simpl. rewrite <- IH at 2. by destruct ev.
Qed.

Lemma opened_after_cleanup_incl (connected l : list string) :
  l ⊆ connected → opened_after l (cleanup connected) = [].
Proof.
  revert l. induction connected as [|b connected IH]; intros l Hl.
  - destruct l as [|x l]; [reflexivity|]. set_solver.
  - simpl. apply IH. intros x [Hne Hx]%list_elem_of_filter.
    apply Hl, elem_of_cons in Hx as [-> | Hx]; done.
Qed.

Lemma opened_after_cleanup (connected : list string) :
  opened_after connected (cleanup connected) = [].
Proof. by apply opened_after_cleanup_incl. Qed.

Lemma authenticate_neutral (w : World) (apiKey : string) :
  Forall neutral (authenticateAndGetServers apiKey w).1.
Proof. rewrite authenticate_trace. by repeat constructor. Qed.

Lemma loadConfig_neutral (w : World) (apiKey : option string) :
  Forall neutral (loadConfig apiKey w).1.
Proof.
  destruct (truthy apiKey) eqn:Hkey.
  - rewrite (loadConfig_keyed_unfold _ _ Hkey).
    pose proof (authenticate_neutral w (default "" apiKey)) as Hn.
    destruct (authenticateAndGetServers _ w) as [t [s | e]]; simpl in *;
      [done|].
    apply Forall_app. split; [done | by repeat constructor].
  - unfold loadConfig. rewrite Hkey. unfold_async. simpl.
    destruct (readFile w _) as [e | contents]; simpl;
      [by repeat constructor|].
    destruct (JSON_parse w contents) as [e | config]; simpl;
      by repeat constructor.
Qed.

Lemma issued_settled (t : list Event) : issued t ++ settled t = t.
Proof.
  induction t as [|ev t IH]; [reflexivity|].
  simpl. destruct (is_request ev || is_read ev); [reflexivity|].
  simpl. by rewrite IH.
Qed.

Lemma issued_Forall (P : Event → Prop) (t : list Event) :
  Forall P t → Forall P (issued t).
Proof.
  intros Ht. rewrite <- (issued_settled t) in Ht.
  by apply Forall_app in Ht as [? _].
Qed.

Lemma settled_Forall (P : Event → Prop) (t : list Event) :
  Forall P t → Forall P (settled t).
Proof.
  intros Ht. rewrite <- (issued_settled t) in Ht.
  by apply Forall_app in Ht as [_ ?].
Qed.

Lemma createServer_start_neutral (w : World) (apiKey : option string) :
  Forall neutral (createServer_start w apiKey).
Proof. apply issued_Forall, loadConfig_neutral. Qed.

(** One step of [createServer] opens at most one Backend Connection and
    closes none; a rejection comes from [loadConfig], before any
    connection is opened. *)
Lemma createServer_step_spec (w : World) (apiKey : option string)
    (s : Startup) :
  match s, createServer_step w apiKey s with
  | Resolving, (t, Connecting _ connected) =>
      Forall neutral t ∧ connected = []
  | Resolving, (t, Failed e) =>
      Forall neutral t ∧ (loadConfig apiKey w).2 = Rejected e
  | Resolving, _ => False
  | Connecting _ connected, (t, Connecting _ connected') =>
      opened_after connected t = connected'
  | Connecting _ connected, (t, Created connected') =>
      t = [] ∧ connected' = connected
  | Connecting _ _, _ => False
  | Created connected, (t, s') => t = [] ∧ s' = s
  | Failed e, (t, s') => t = [] ∧ s' = s
  end.
Proof.
  destruct s as [|todo connected|connected|e]; simpl; [| |done|done].
  - pose proof (settled_Forall neutral _ (loadConfig_neutral w apiKey)) as Hn.
    destruct (loadConfig apiKey w) as [t [config | e]]; simpl in *; done.
  - destruct todo as [|d todo]; [done|].
    by destruct (backend_reachable w (name d)).
Qed.

(** * Properties of [index.ts] *)

Lemma stdio_stopped (w : World) (st : Stdio.State) (ins : list Stdio.Input) :
  Stdio.status st ≠ Running → Stdio.run w st ins = st.
Proof.
  intros Hst. induction ins as [|i ins IH]; [reflexivity|].
  simpl. replace (Stdio.step w st i) with st; [exact IH|].
  unfold Stdio.step. by destruct (Stdio.status st).
Qed.

Lemma stdio_open_backends_log (st : Stdio.State) (t : list Event) (s : Status)
    (u : Startup) (h : option (list string)) :
  Stdio.open_backends
    {| Stdio.status := s; Stdio.trace := Stdio.trace st ++ t;
       Stdio.startup := u; Stdio.sigint_handler := h |} =
  opened_after (Stdio.open_backends st) t.
Proof. apply opened_after_app. Qed.

Lemma stdio_step_invariant (w : World) (st : Stdio.State) (i : Stdio.Input) :
  stdio_invariant st → stdio_invariant (Stdio.step w st i).
Proof.
  unfold stdio_invariant at 1, Stdio.step.
  destruct (Stdio.status st) eqn:Hstatus;
    [|by unfold stdio_invariant; rewrite Hstatus..].
  destruct i.
  - pose proof (createServer_step_spec w (Stdio.apiKey w) (Stdio.startup st))
      as Hstep.
    destruct (Stdio.startup st) as [|todo connected|connected|e] eqn:Hs;
      destruct (createServer_step w (Stdio.apiKey w) _)
        as [t [|todo' connected'|connected'|e']];
      try done.
    all: intros [Hopen Hh].
    all: try by (destruct Hstep; simplify_eq).
    + destruct Hstep as [Hn ->]. unfold stdio_invariant; simpl.
      rewrite stdio_open_backends_log, Hopen. by rewrite opened_after_neutral.
    + by unfold stdio_invariant; simpl; eauto.
    + unfold stdio_invariant; simpl.
      by rewrite stdio_open_backends_log, Hopen.
    + destruct Hstep as [-> ->]. rewrite Hh.
      destruct (server_connect w 0) as [error|];
        unfold stdio_invariant; simpl; [by eauto|].
      split; [|done].
      by rewrite stdio_open_backends_log, Hopen.
    + rewrite Hh. unfold stdio_invariant. by rewrite Hstatus, Hs.
  - intros _. destruct (Stdio.sigint_handler st); by unfold stdio_invariant.
Qed.

Lemma stdio_init_invariant (w : World) : stdio_invariant (Stdio.init w).
Proof.
  unfold stdio_invariant. simpl. split; [|done].
  apply opened_after_neutral, createServer_start_neutral.
Qed.

Lemma stdio_run_invariant (w : World) (st : Stdio.State)
    (ins : list Stdio.Input) :
  stdio_invariant st → stdio_invariant (Stdio.run w st ins).
Proof.
  revert st. induction ins as [|i ins IH]; intros st Hst; [done|].
  simpl. by apply IH, stdio_step_invariant.
Qed.

(** With an API key, the call of [createServer] sends the request to the
    resolver. *)
Lemma createServer_start_keyed (w : World) (apiKey : option string) :
  truthy apiKey = true →
  createServer_start w apiKey =
  [HttpGet (CLIENT_API_URL w +:+ "/servers")
     ("Bearer " +:+ default "" apiKey)].
Proof.
  intros Hkey. unfold createServer_start.
  rewrite (loadConfig_keyed_unfold _ _ Hkey).
  pose proof (authenticate_trace w (default "" apiKey)) as Ht.
  destruct (authenticateAndGetServers _ w) as [t [s | e']]; simpl in *;
    by subst t.
Qed.

(** The first settled await of a bootstrap whose resolver call rejects. *)
Lemma createServer_step_rejected (w : World) (apiKey : option string)
    (e : JsError) :
  truthy apiKey = true →
  (authenticateAndGetServers (default "" apiKey) w).2 = Rejected e →
  createServer_step w apiKey Resolving =
  ([ConsoleError "Auth error with API key:" e], Failed e).
Proof.
  intros Hkey Hrej. simpl. rewrite (loadConfig_keyed_unfold _ _ Hkey).
  pose proof (authenticate_trace w (default "" apiKey)) as Ht.
  destruct (authenticateAndGetServers _ w) as [t [s | e']]; simpl in *;
    by simplify_eq.
Qed.

(** C6: when the API key is set and the resolver call rejects, no Backend
    Connection is opened under any schedule of the stdio bootstrap, and as
    soon as the rejection arrives the process logs it and exits with code
    1, with nothing opened and no listener installed. *)
Theorem resolution_failure_is_fatal (w : World) (e : JsError) :
  truthy (Stdio.apiKey w) = true →
  (authenticateAndGetServers (default "" (Stdio.apiKey w)) w).2 =
    Rejected e →
  (∀ ins, let st := Stdio.run w (Stdio.init w) ins in
     (∀ b, OpenBackend b ∉ Stdio.trace st) ∧
     Stdio.open_backends st = [] ∧
     Stdio.sigint_handler st = None) ∧
  (∀ ins, let st := Stdio.run w (Stdio.init w) (Stdio.Tick :: ins) in
     Stdio.status st = Exited 1 ∧
     Stdio.trace st =
       [HttpGet (CLIENT_API_URL w +:+ "/servers")
          ("Bearer " +:+ default "" (Stdio.apiKey w));
        ConsoleError "Auth error with API key:" e;
        ConsoleError "Server error:" e;
        ProcessExit 1]).
Proof.
  intros Hkey Hrej.
  pose proof (createServer_step_rejected w _ e Hkey Hrej) as Hstep.
  pose proof (createServer_start_keyed w _ Hkey) as Hstart.
  assert (Hexit : ∀ ins,
     let st := Stdio.run w (Stdio.init w) (Stdio.Tick :: ins) in
     Stdio.status st = Exited 1 ∧
     Stdio.trace st =
       [HttpGet (CLIENT_API_URL w +:+ "/servers")
          ("Bearer " +:+ default "" (Stdio.apiKey w));
        ConsoleError "Auth error with API key:" e;
        ConsoleError "Server error:" e;
        ProcessExit 1] ∧
     Stdio.sigint_handler st = None).
  { intros ins. simpl.
    replace (Stdio.step w (Stdio.init w) Stdio.Tick) with
      (Stdio.on_error (Stdio.init w)
         [ConsoleError "Auth error with API key:" e] e)
      by (unfold Stdio.step; simpl Stdio.status; simpl Stdio.startup;
          by rewrite Hstep).
    rewrite stdio_stopped by done. simpl. by rewrite Hstart. }
  split.
  - intros [|[|] ins].
    + unfold Stdio.open_backends. simpl. rewrite Hstart. split; [|done].
      intros b Hb. apply elem_of_cons in Hb as [[=] | Hb].
      by apply elem_of_nil in Hb.
    + destruct (Hexit ins) as (_ & Ht & Hh). simpl in *.
      unfold Stdio.open_backends. rewrite Ht. split; [|by split].
      intros b Hb.
      repeat (apply elem_of_cons in Hb as [[=] | Hb]).
      by apply elem_of_nil in Hb.
    + simpl. rewrite stdio_stopped by done.
      unfold Stdio.open_backends. simpl. rewrite Hstart.
      split; [|done]. intros b Hb. apply elem_of_cons in Hb as [[=] | Hb].
      by apply elem_of_nil in Hb.
  - intros ins. destruct (Hexit ins) as (? & ? & _). by split.
Qed.

Lemma resolution_failure_is_fatal_witness :
  let w := with_resolver (inl (AxiosError (Some 401) "Request failed")) in
  Stdio.status (Stdio.run w (Stdio.init w) [Stdio.Tick; Stdio.Sigint]) =
  Exited 1.
Proof.
  intros w.
  exact (proj1 (proj2 (resolution_failure_is_fatal w
           (Error "Invalid API key") eq_refl eq_refl) [Stdio.Sigint])).
Defined.

(** * Properties of [sse.ts] *)

Lemma sse_stopped (w : World) (st : Sse.State) (ins : list Sse.Input) :
  Sse.status st ≠ Running → Sse.run w st ins = st.
Proof.
  intros Hst. induction ins as [|i ins IH]; [reflexivity|].
  simpl. replace (Sse.step w st i) with st; [exact IH|].
  unfold Sse.step. by destruct (Sse.status st).
Qed.

Lemma sse_open_backends_log (st : Sse.State) (t : list Event) (s : Status)
    (u : Startup) (tr : option nat) (c : option (list string)) (r o : bool) :
  Sse.open_backends
    {| Sse.status := s; Sse.trace := Sse.trace st ++ t; Sse.startup := u;
       Sse.transport := tr; Sse.cleanupFunction := c; Sse.routes := r;
       Sse.onclose := o |} =
  opened_after (Sse.open_backends st) t.
Proof. apply opened_after_app. Qed.

Lemma last_rejected (t t' : list Event) (e : JsError) :
  last (t ++ t' ++ [HandlerRejected e]) = Some (HandlerRejected e).
Proof. by rewrite app_assoc, last_snoc. Qed.

Lemma sse_step_invariant (w : World) (st : Sse.State) (i : Sse.Input) :
  sse_invariant st → sse_invariant (Sse.step w st i).
Proof.
  unfold sse_invariant at 1, Sse.step.
  destruct (Sse.status st) eqn:Hstatus;
    [|by unfold sse_invariant; rewrite Hstatus..].
  destruct i as [| |res|body rejection|].
  - pose proof (createServer_step_spec w (Sse.apiKey w) (Sse.startup st))
      as Hstep.
    destruct (Sse.startup st) as [|todo connected|connected|e] eqn:Hs;
      destruct (createServer_step w (Sse.apiKey w) _)
        as [t [|todo' connected'|connected'|e']];
      try done.
    all: try by (destruct Hstep; simplify_eq).
    all: intros Hinv.
    all: unfold sse_invariant; simpl; rewrite ?sse_open_backends_log.
    all: destruct_and?; simplify_eq;
      rewrite ?opened_after_neutral by done; eauto 10.
  - intros _.
    destruct (Sse.cleanupFunction st); unfold sse_invariant, Sse.exit; done.
  - intros Hinv.
    destruct (Sse.startup st) eqn:Hs; try done; destruct_and?;
      repeat case_match; simplify_eq;
      unfold sse_invariant, Sse.log; simpl; rewrite ?Hs, ?Hstatus;
      rewrite ?sse_open_backends_log; simpl; eauto 10.
    intros _. right. eexists. apply (last_rejected _ [_; _]).
  - intros Hinv.
    destruct (Sse.startup st) eqn:Hs; try done; destruct_and?;
      repeat case_match; simplify_eq;
      unfold sse_invariant, Sse.log, Sse.reject; simpl;
      rewrite ?Hs, ?Hstatus;
      rewrite ?sse_open_backends_log; simpl; eauto 10.
    all: intros _; right; eexists;
      first [apply (last_rejected _ [_; _]) | apply (last_rejected _ [_])].
  - intros Hinv.
    destruct (Sse.startup st) eqn:Hs; try done; destruct_and?;
      repeat case_match; simplify_eq;
      unfold sse_invariant, Sse.log, Sse.exit; simpl; rewrite ?Hs, ?Hstatus;
      rewrite ?sse_open_backends_log; simpl; eauto 10; done.
Qed.

Lemma sse_init_invariant (w : World) : sse_invariant (Sse.init w).
Proof.
  unfold sse_invariant. simpl. split; [|done].
  unfold Sse.open_backends. simpl. apply opened_after_neutral.
  apply Forall_app. split; [apply createServer_start_neutral|].
  by repeat constructor.
Qed.

Lemma sse_run_invariant (w : World) (st : Sse.State) (ins : list Sse.Input) :
  sse_invariant st → sse_invariant (Sse.run w st ins).
Proof.
  revert st. induction ins as [|i ins IH]; intros st Hst; [done|].
  simpl. by apply IH, sse_step_invariant.
Qed.


(** * Shutdown on [SIGINT] *)







(** * The upstream transport of the SSE bootstrap *)

Lemma sse_step_routes (w : World) (st : Sse.State) (i : Sse.Input) :
  Sse.routes st = true → Sse.routes (Sse.step w st i) = true.
Proof.
  intros Hr. unfold Sse.step, Sse.log, Sse.exit, Sse.reject.
  repeat case_match; simpl; done.
Qed.

Lemma sse_run_routes (w : World) (st : Sse.State) (ins : list Sse.Input) :
  Sse.routes st = true → Sse.routes (Sse.run w st ins) = true.
Proof.
  revert st. induction ins as [|i ins IH]; intros st Hr; [done|].
  simpl. by apply IH, sse_step_routes.
Qed.

(** Only [GET /sse] assigns the module variable [transport]. *)
Lemma sse_step_transport (w : World) (st : Sse.State) (i : Sse.Input) :
  Sse.latest_client [i] = None →
  Sse.transport (Sse.step w st i) = Sse.transport st.
Proof.
  intros Hi. unfold Sse.step, Sse.log, Sse.exit, Sse.reject.
  destruct i; [| | done | |]; repeat case_match; simpl; done.
Qed.

Lemma latest_client_cons_None (i : Sse.Input) (ins : list Sse.Input) :
  Sse.latest_client (i :: ins) = None →
  Sse.latest_client [i] = None ∧ Sse.latest_client ins = None.
Proof.
  destruct i; simpl; try done.
  by destruct (Sse.latest_client ins).
Qed.

Lemma sse_run_transport (w : World) (st : Sse.State) (ins : list Sse.Input) :
  Sse.latest_client ins = None →
  Sse.transport (Sse.run w st ins) = Sse.transport st.
Proof.
  revert st. induction ins as [|i ins IH]; intros st Hins; [done|].
  apply latest_client_cons_None in Hins as [Hi Hins].
  simpl. rewrite IH by done. by apply sse_step_transport.
Qed.

(** A handled [POST /message]: [handlePostMessage] is called on the
    transport that the variable holds, and a rejection of the handler's
    promise, of that call or of reading the undefined variable, ends the
    process with exit code 1. *)
Lemma sse_post_message (w : World) (st : Sse.State) (body : string)
    (rejection : option JsError) :
  Sse.status st = Running → Sse.routes st = true →
  let st' := Sse.step w st (Sse.PostMessage body rejection) in
  match Sse.transport st with
  | Some t =>
      Sse.trace st' =
        Sse.trace st ++ [ConsoleLog "Got message"; Delivered t body] ++
        match rejection with
        | Some error => [HandlerRejected error]
        | None => []
        end ∧
      Sse.status st' =
        match rejection with
        | Some _ => Exited 1
        | None => Running
        end
  | None =>
      Sse.trace st' =
        Sse.trace st ++
        [ConsoleLog "Got message"; HandlerRejected Sse.undefined_transport] ∧
      Sse.status st' = Exited 1
  end.
Proof.
  intros Hrun Hr. unfold Sse.step. rewrite Hrun, Hr.
  destruct (Sse.transport st); [|done].
  by destruct rejection.
Qed.

Lemma sse_unregistered_transport (w : World) (ins : list Sse.Input) :
  let st := Sse.run w (Sse.init w) ins in
  Sse.status st = Running → Sse.routes st = false →
  Sse.transport st = None.
Proof.
  intros st Hrun Hr.
  pose proof (sse_run_invariant w _ ins (sse_init_invariant w)) as Hinv.
  fold st in Hinv. unfold sse_invariant in Hinv. rewrite Hrun in Hinv.
  destruct (Sse.startup st); [by destruct_and? ..| |done].
  destruct Hinv as (_ & _ & Hr'). congruence.
Qed.

(** C8, as stated, fails while [createServer] is pending: the two routes
    are registered only when it has resolved, so that a [GET /sse] that
    arrives before assigns no transport and a [POST /message] that arrives
    before operates on no transport, defined or undefined; both are
    answered with 404 by the application's default handler. *)
Lemma sse_requests_during_startup_not_found :
  let w := with_config_file in
  let st := Sse.run w (Sse.init w)
              [Sse.Tick; Sse.GetSse 1%nat; Sse.PostMessage "ping" None] in
  Sse.status st = Running ∧
  Sse.transport st = None ∧
  Sse.trace st =
    [ConsoleLog "Load config from: /srv/proxy/config.json";
     ReadFile "/srv/proxy/config.json";
     Listen "3006";
     ConsoleLog "Server listening on port 3006";
     NotFound "/sse";
     NotFound "/message"].
Proof. by vm_compute. Qed.

(** C8, amended: [transport] is one variable of the module, assigned by
    every handled [GET /sse], and the routes are handled once
    [createServer] has resolved: until then a request to either route is
    answered with 404 and the variable stays undefined; from then on
    [handlePostMessage] of a [POST /message] is called on the transport of
    the most recent [GET /sse], whatever clients connected before, and a
    [POST /message] handled when no [GET /sse] has been handled finds the
    variable undefined, so that the promise of its handler rejects with a
    [TypeError]; a rejected promise of the handler ends the process with
    exit code 1. *)
Theorem sse_single_transport (w : World) (body : string)
    (rejection : option JsError) :
  (∀ ins res,
     let st := Sse.run w (Sse.init w) ins in
     Sse.status st = Running → Sse.routes st = false →
     Sse.transport st = None ∧
     Sse.step w st (Sse.GetSse res) = Sse.log st [NotFound "/sse"] ∧
     Sse.step w st (Sse.PostMessage body rejection) =
       Sse.log st [NotFound "/message"]) ∧
  (∀ st res ins,
     Sse.status st = Running → Sse.routes st = true →
     Sse.latest_client ins = None →
     let st' := Sse.run w (Sse.step w st (Sse.GetSse res)) ins in
     Sse.status st' = Running →
     let st'' := Sse.step w st' (Sse.PostMessage body rejection) in
     Sse.transport st' = Some res ∧
     Sse.trace st'' =
       Sse.trace st' ++ [ConsoleLog "Got message"; Delivered res body] ++
       match rejection with
       | Some error => [HandlerRejected error]
       | None => []
       end ∧
     Sse.status st'' =
       match rejection with
       | Some _ => Exited 1
       | None => Running
       end) ∧
  (∀ before ins,
     let unregistered := Sse.run w (Sse.init w) before in
     Sse.routes unregistered = false →
     Sse.latest_client ins = None →
     let st := Sse.run w unregistered ins in
     Sse.status st = Running → Sse.routes st = true →
     let st' := Sse.step w st (Sse.PostMessage body rejection) in
     Sse.transport st = None ∧
     Sse.trace st' =
       Sse.trace st ++
       [ConsoleLog "Got message"; HandlerRejected Sse.undefined_transport] ∧
     Sse.status st' = Exited 1).
Proof.
  split; [|split].
  - intros ins res st Hrun Hr.
    split; [by apply sse_unregistered_transport|].
    unfold Sse.step. by rewrite Hrun, Hr.
  - intros st res ins Hrun Hr Hins st' Hrun' st''.
    assert (Sse.transport st' = Some res) as Ht.
    { unfold st'. rewrite sse_run_transport by done.
      unfold Sse.step. rewrite Hrun, Hr.
      by destruct (server_connect w res). }
    split; [done|].
    assert (Sse.routes st' = true) as Hr'
      by (by apply sse_run_routes, sse_step_routes).
    pose proof (sse_post_message w st' body rejection Hrun' Hr') as Hpost.
    by rewrite Ht in Hpost.
  - intros before ins unregistered Hun Hins st Hrun Hr st'.
    assert (Sse.status unregistered = Running) as Hrun0.
    { destruct (Sse.status unregistered) eqn:Hs; [done|..];
        unfold st in Hr; rewrite sse_stopped in Hr by (by rewrite Hs);
        congruence. }
    assert (Sse.transport st = None) as Ht.
    { unfold st. rewrite sse_run_transport by done.
      by apply sse_unregistered_transport. }
    split; [done|].
    pose proof (sse_post_message w st body rejection Hrun Hr) as Hpost.
    by rewrite Ht in Hpost.
Qed.

Lemma sse_single_transport_witness :
  let w := with_config_file in
  let ready := Sse.run w (Sse.init w)
                 [Sse.GetSse 0%nat; Sse.Tick; Sse.Tick; Sse.Tick; Sse.Tick] in
  let st := Sse.run w ready [Sse.GetSse 1%nat; Sse.GetSse 2%nat] in
  Sse.routes ready = true ∧
  Sse.status (Sse.step w ready (Sse.PostMessage "ping" None)) = Exited 1 ∧
  Sse.trace (Sse.step w st (Sse.PostMessage "ping" None)) =
    Sse.trace st ++ [ConsoleLog "Got message"; Delivered 2%nat "ping"].
Proof.
  intros w ready st. split; [reflexivity|]. split.
  - exact (proj2 (proj2 (proj2 (proj2 (sse_single_transport w "ping" None))
             [Sse.GetSse 0%nat] [Sse.Tick; Sse.Tick; Sse.Tick; Sse.Tick]
             eq_refl eq_refl eq_refl eq_refl))).
  - exact (proj1 (proj2 (proj1 (proj2 (sse_single_transport w "ping" None))
             (Sse.step w ready (Sse.GetSse 1%nat)) 2%nat []
             eq_refl eq_refl eq_refl eq_refl))).
Defined.

(** When the resolver call rejects, the SSE bootstrap opens no Backend
    Connection and registers no route under any schedule, and the turn
    that brings the rejection logs it and exits with code 1. *)
Lemma sse_resolver_rejection_exits (w : World) (e : JsError) :
  truthy (Sse.apiKey w) = true →
  (authenticateAndGetServers (default "" (Sse.apiKey w)) w).2 = Rejected e →
  ∀ ins, let st := Sse.run w (Sse.init w) ins in
    Sse.open_backends st = [] ∧ Sse.cleanupFunction st = None ∧
    (Sse.status st = Running →
     Sse.status (Sse.step w st Sse.Tick) = Exited 1 ∧
     Sse.trace (Sse.step w st Sse.Tick) =
       Sse.trace st ++
       [ConsoleError "Auth error with API key:" e;
        ConsoleError "Error in server initialization:" e;
        ProcessExit 1]).
Proof.
  intros Hkey Hrej ins.
  pose proof (createServer_step_rejected w _ e Hkey Hrej) as Hstep.
  assert (Hinv : ∀ st, 
    (Sse.open_backends st = [] ∧ Sse.cleanupFunction st = None ∧
     Sse.routes st = false ∧ Sse.onclose st = false ∧
     (Sse.status st = Running → Sse.startup st = Resolving)) →
    ∀ i, let st' := Sse.step w st i in
    Sse.open_backends st' = [] ∧ Sse.cleanupFunction st' = None ∧
    Sse.routes st' = false ∧ Sse.onclose st' = false ∧
    (Sse.status st' = Running → Sse.startup st' = Resolving)).
  { intros st (Hopen & Hc & Hr & Ho & Hs) i. unfold Sse.step.
    destruct (Sse.status st) eqn:Hstatus;
      [|simpl; rewrite Hstatus; repeat split; auto; congruence..].
    specialize (Hs eq_refl).
    destruct i; rewrite ?Hs, ?Hstep, ?Hc, ?Hr, ?Ho;
      unfold Sse.exit, Sse.log; simpl;
      rewrite ?sse_open_backends_log, ?Hopen; simpl;
      repeat split; auto; congruence. }
  assert (Hall : ∀ ins st,
    (Sse.open_backends st = [] ∧ Sse.cleanupFunction st = None ∧
     Sse.routes st = false ∧ Sse.onclose st = false ∧
     (Sse.status st = Running → Sse.startup st = Resolving)) →
    let st' := Sse.run w st ins in
    Sse.open_backends st' = [] ∧ Sse.cleanupFunction st' = None ∧
    Sse.routes st' = false ∧ Sse.onclose st' = false ∧
    (Sse.status st' = Running → Sse.startup st' = Resolving)).
  { clear ins. induction ins as [|i ins IH]; intros st Hst; [done|].
    simpl. by apply IH, Hinv. }
  destruct (Hall ins (Sse.init w)) as (Hopen & Hc & _ & _ & Hs).
  { split; [|done].
    pose proof (sse_init_invariant w) as Hinit.
    unfold sse_invariant in Hinit. simpl in Hinit. by apply Hinit. }
  split; [done|]. split; [done|].
  intros Hrun. specialize (Hs Hrun).
  unfold Sse.step. by rewrite Hrun, Hs, Hstep.
Qed.

(** * Properties of the Capability Aggregator *)

(** ** Strings and the encoded composition *)

Section Compositions.
Import Aggregator.

Lemma append_cons (a : ascii) (s r : string) :
  String a s +:+ r = String a (s +:+ r).
Proof. reflexivity. Qed.

Lemma append_assoc (s1 s2 s3 : string) :
  (s1 +:+ s2) +:+ s3 = s1 +:+ s2 +:+ s3.
Proof.
  induction s1 as [|a s1 IH]; [reflexivity|].
  by rewrite !append_cons, IH.
Qed.

Lemma prefix_nil (s : string) : String.prefix "" s = true.
Proof. by destruct s. Qed.

Lemma prefix_cons (a b : ascii) (s1 s2 : string) :
  String.prefix (String a s1) (String b s2) =
  if Ascii.ascii_dec a b then String.prefix s1 s2 else false.
Proof. reflexivity. Qed.

(** Two strings that begin the same string begin one another. *)
Lemma prefix_comparable (s1 s2 r1 r2 : string) :
  s1 +:+ r1 = s2 +:+ r2 →
  String.prefix s1 s2 = true ∨ String.prefix s2 s1 = true.
Proof.
  revert s2. induction s1 as [|a s1 IH]; intros s2 Heq.
  - left. apply prefix_nil.
  - destruct s2 as [|b s2]; [right; apply prefix_nil|].
    rewrite !append_cons in Heq. injection Heq as -> Heq.
    rewrite !prefix_cons.
    destruct (Ascii.ascii_dec b b); [|done]. by apply IH.
Qed.

Lemma colon_free_prefix (n1 n2 : string) :
  colon_free n1 = true → colon_free n2 = true →
  String.prefix (n1 +:+ "::") (n2 +:+ "::") = true → n1 = n2.
Proof.
  revert n2. induction n1 as [|a n1 IH]; intros [|b n2] H1 H2 Hpre.
  - done.
  - simpl in H2. apply andb_prop in H2 as [Hb _].
    rewrite append_cons in Hpre.
    change ("" +:+ "::") with (String ":" (String ":" "")) in Hpre.
    rewrite prefix_cons in Hpre.
    destruct (Ascii.ascii_dec ":" b) as [<- | _]; done.
  - simpl in H1. apply andb_prop in H1 as [Ha _].
    rewrite append_cons in Hpre.
    change ("" +:+ "::") with (String ":" (String ":" "")) in Hpre.
    rewrite prefix_cons in Hpre.
    destruct (Ascii.ascii_dec a ":") as [-> | _]; done.
  - simpl in H1, H2.
    apply andb_prop in H1 as [_ H1]. apply andb_prop in H2 as [_ H2].
    rewrite !append_cons, prefix_cons in Hpre.
    destruct (Ascii.ascii_dec a b) as [-> | _]; [|done].
    f_equal. by apply IH.
Qed.

Lemma encode_cons (a : ascii) (s : string) :
  encode (String a s) =
  if Ascii.eqb a ":" then String "%" (String "3" (String "A" (encode s)))
  else if Ascii.eqb a "%"
       then String "%" (String "2" (String "5" (encode s)))
       else String a (encode s).
Proof. reflexivity. Qed.

Lemma encode_colon_free (s : string) : colon_free (encode s) = true.
Proof.
  induction s as [|a s IH]; [reflexivity|].
  rewrite encode_cons.
  destruct (Ascii.eqb a ":") eqn:Ha; [exact IH|].
  destruct (Ascii.eqb a "%"); [exact IH|].
  simpl. by rewrite Ha, IH.
Qed.

Lemma encode_inj (s1 s2 : string) : encode s1 = encode s2 → s1 = s2.
Proof.
  revert s2. induction s1 as [|a s1 IH]; intros [|b s2] Heq.
  - done.
  - rewrite encode_cons in Heq. by repeat case_match.
  - rewrite encode_cons in Heq. by repeat case_match.
  - rewrite !encode_cons in Heq.
    destruct (Ascii.eqb_spec a ":") as [-> | Ha1],
      (Ascii.eqb_spec b ":") as [-> | Hb1];
      [|destruct (Ascii.eqb_spec b "%") as [-> | Hb2]
       |destruct (Ascii.eqb_spec a "%") as [-> | Ha2]
       |destruct (Ascii.eqb_spec a "%") as [-> | Ha2],
          (Ascii.eqb_spec b "%") as [-> | Hb2]];
      try discriminate; injection Heq; intros; subst; try done;
      f_equal; by apply IH.
Qed.

(** The encoded composition guarantees global uniqueness. *)
Lemma encoded_unique : @UniqueComposition encoded.
Proof.
  intros b1 o1 b2 o2 Heq.
  unfold compose_id, encoded in Heq.
  assert (encode b1 = encode b2) as Hb.
  { rewrite <- !append_assoc in Heq.
    destruct (prefix_comparable _ _ _ _ Heq) as [Hpre | Hpre].
    - apply colon_free_prefix; auto using encode_colon_free.
    - symmetry. apply colon_free_prefix; auto using encode_colon_free. }
  rewrite Hb in Heq. split; [by apply encode_inj|].
  by repeat apply (inj (String.append _)) in Heq.
Qed.

End Compositions.

(** ** The mapping from aggregatedId to entry *)

Section AggregatorFacts.
Import Aggregator.

Lemma find_entry_Some (id : string) (l : list CapabilityEntry)
    (e : CapabilityEntry) :
  find_entry id l = Some e → e ∈ l ∧ aggregatedId e = id.
Proof.
  induction l as [|e' l IH]; simpl; [done|].
  case_decide as Hid.
  - intros [= ->]. split; [left | done].
  - intros [Hin Heq]%IH. split; [by right | done].
Qed.

Lemma find_entry_None (id : string) (l : list CapabilityEntry) :
  find_entry id l = None ↔ id ∉ aggregatedId <$> l.
Proof.
  induction l as [|e' l IH]; simpl.
  - split; [|done]. intros _ H. by apply elem_of_nil in H.
  - case_decide as Hid.
    + split; [done|]. intros Hnot. exfalso. apply Hnot. subst. left.
    + rewrite IH, not_elem_of_cons. split; [by intros ? | by intros [_ ?]].
Qed.

Lemma find_entry_NoDup (l : list CapabilityEntry) (e : CapabilityEntry) :
  NoDup (aggregatedId <$> l) → e ∈ l →
  find_entry (aggregatedId e) l = Some e.
Proof.
  induction l as [|e' l IH]; simpl; intros Hnd Hin.
  - by apply elem_of_nil in Hin.
  - apply NoDup_cons in Hnd as [Hfresh Hnd].
    apply elem_of_cons in Hin as [-> | Hin].
    + by rewrite decide_True.
    + rewrite decide_False; [by apply IH|].
      intros Heq. apply Hfresh. rewrite Heq.
      by apply list_elem_of_fmap_2.
Qed.

Lemma find_entry_elem (l : list CapabilityEntry) (id : string) :
  id ∈ aggregatedId <$> l →
  ∃ e, find_entry id l = Some e ∧ e ∈ l ∧ aggregatedId e = id.
Proof.
  intros Hin. destruct (find_entry id l) as [e|] eqn:Hfind.
  - exists e. split; [done|]. by apply find_entry_Some.
  - by apply find_entry_None in Hfind.
Qed.

Lemma same_id_same_entry (l : list CapabilityEntry) (x y : CapabilityEntry) :
  NoDup (aggregatedId <$> l) → x ∈ l → y ∈ l →
  aggregatedId x = aggregatedId y → x = y.
Proof.
  intros Hnd Hx Hy Hid.
  pose proof (find_entry_NoDup l x Hnd Hx) as Hfx.
  pose proof (find_entry_NoDup l y Hnd Hy) as Hfy.
  rewrite Hid in Hfx. congruence.
Qed.

Lemma set_entry_ids (e : CapabilityEntry) (l : list CapabilityEntry) :
  aggregatedId <$> set_entry e l =
  if decide (aggregatedId e ∈ aggregatedId <$> l)
  then aggregatedId <$> l
  else (aggregatedId <$> l) ++ [aggregatedId e].
Proof.
  induction l as [|e' l IH]; cbn [set_entry].
  - rewrite decide_False; [done|]. by intros H%elem_of_nil.
  - rewrite !fmap_cons.
    destruct (decide (aggregatedId e' = aggregatedId e)) as [Heq | Hne].
    + rewrite decide_True by (rewrite Heq; left). by rewrite fmap_cons, Heq.
    + rewrite fmap_cons, IH.
      destruct (decide (aggregatedId e ∈ aggregatedId <$> l)) as [Hin | Hnin].
      * by rewrite decide_True by by right.
      * rewrite decide_False; [done|].
        rewrite not_elem_of_cons. by split.
Qed.

Lemma set_entry_NoDup (e : CapabilityEntry) (l : list CapabilityEntry) :
  NoDup (aggregatedId <$> l) → NoDup (aggregatedId <$> set_entry e l).
Proof.
  intros Hnd. rewrite set_entry_ids. case_decide as Hin; [done|].
  apply NoDup_app. split; [done|]. split; [|apply NoDup_singleton].
  intros id Hid ->%list_elem_of_singleton. done.
Qed.

Lemma elem_of_set_entry (e x : CapabilityEntry) (l : list CapabilityEntry) :
  x ∈ set_entry e l → x = e ∨ x ∈ l.
Proof.
  induction l as [|e' l IH]; simpl.
  - intros ->%list_elem_of_singleton. by left.
  - case_decide.
    + intros [-> | Hin]%elem_of_cons; [by left | right; by right].
    + intros [-> | Hin]%elem_of_cons; [right; left|].
      destruct (IH Hin) as [-> | Hin']; [by left | right; by right].
Qed.

Lemma set_entry_keeps (e x : CapabilityEntry) (l : list CapabilityEntry) :
  x ∈ l → aggregatedId x ≠ aggregatedId e → x ∈ set_entry e l.
Proof.
  induction l as [|e' l IH]; simpl; intros Hin Hne.
  - by apply elem_of_nil in Hin.
  - apply elem_of_cons in Hin as [-> | Hin].
    + rewrite decide_False by done. left.
    + case_decide; right; [done | by apply IH].
Qed.

Lemma insert_all_NoDup (fresh l : list CapabilityEntry) :
  NoDup (aggregatedId <$> l) → NoDup (aggregatedId <$> insert_all fresh l).
Proof.
  revert l. induction fresh as [|f fresh IH]; intros l Hnd; [done|].
  apply IH. by apply set_entry_NoDup.
Qed.

Lemma elem_of_insert_all (fresh l : list CapabilityEntry)
    (x : CapabilityEntry) :
  x ∈ insert_all fresh l → x ∈ l ∨ x ∈ fresh.
Proof.
  revert l. induction fresh as [|f fresh IH]; intros l Hin; [by left|].
  destruct (IH _ Hin) as [Hx | Hx]; [|right; by right].
  destruct (elem_of_set_entry _ _ _ Hx) as [-> | Hx']; [right; left | by left].
Qed.

Lemma insert_all_keeps (fresh l : list CapabilityEntry) (x : CapabilityEntry) :
  x ∈ l → aggregatedId x ∉ aggregatedId <$> fresh → x ∈ insert_all fresh l.
Proof.
  revert l. induction fresh as [|f fresh IH]; intros l Hin Hne; [done|].
  rewrite fmap_cons, not_elem_of_cons in Hne. destruct Hne as [Hne Hrest].
  apply IH; [|done]. by apply set_entry_keeps.
Qed.

Lemma insert_all_ids (fresh l : list CapabilityEntry) (id : string) :
  id ∈ aggregatedId <$> insert_all fresh l ↔
  id ∈ aggregatedId <$> l ∨ id ∈ aggregatedId <$> fresh.
Proof.
  revert l. induction fresh as [|f fresh IH]; intros l.
  - simpl. split; [by left|]. intros [? | H]; [done|].
    by apply elem_of_nil in H.
  - change (insert_all (f :: fresh) l) with (insert_all fresh (set_entry f l)).
    rewrite IH, set_entry_ids, fmap_cons, elem_of_cons.
    case_decide as Hin.
    + split; [tauto|]. intros [? | [-> | ?]]; tauto.
    + rewrite elem_of_app, list_elem_of_singleton. tauto.
Qed.

(** ** Lists *)

Lemma filter_ext_elem {A} (P Q : A → Prop) `{∀ x, Decision (P x)}
    `{∀ x, Decision (Q x)} (l : list A) :
  (∀ x, x ∈ l → P x ↔ Q x) → filter P l = filter Q l.
Proof.
  induction l as [|x l IH]; intros Hext; [done|].
  rewrite !filter_cons.
  rewrite IH by (intros y Hy; apply Hext; by right).
  destruct (decide (P x)) as [HP | HP], (decide (Q x)) as [HQ | HQ];
    try done; exfalso; apply (Hext x) in HP || apply (Hext x) in HQ;
    done || left.
Qed.

Lemma filter_bind {A B} (P : B → Prop) `{∀ x, Decision (P x)}
    (f : A → list B) (l : list A) :
  filter P (l ≫= f) = l ≫= (λ x, filter P (f x)).
Proof.
  induction l as [|x l IH]; [done|].
  by rewrite !bind_cons, filter_app, IH.
Qed.

Lemma bind_filter_skip {A B} (x0 : A) `{EqDecision A} (f g : A → list B)
    (l : list A) :
  (∀ x, x ≠ x0 → f x = g x) → g x0 = [] →
  filter (λ x, x ≠ x0) l ≫= f = l ≫= g.
Proof.
  intros Hfg Hx0. induction l as [|x l IH]; [done|].
  rewrite filter_cons, bind_cons.
  destruct (decide (x ≠ x0)) as [Hne | Heq].
  - by rewrite bind_cons, IH, Hfg.
  - apply dec_stable in Heq as ->. by rewrite Hx0, IH.
Qed.

Lemma filter_none {A} (P : A → Prop) `{∀ x, Decision (P x)} (l : list A) :
  (∀ x, ¬ P x) → filter P l = [].
Proof.
  intros HP. induction l as [|x l IH]; [done|].
  rewrite filter_cons. by destruct (decide (P x)) as [?%HP|].
Qed.

Lemma other_owner_unpruned (l : list CapabilityEntry) (b b' : string) :
  b' ≠ b →
  filter (λ e, ownerBackend e = b') (filter (λ e, ownerBackend e ≠ b) l) =
  filter (λ e, ownerBackend e = b') l.
Proof.
  intros Hb'. rewrite list_filter_filter.
  apply list_filter_iff. intros e. split; [by intros [? _] | ].
  intros <-. by split.
Qed.





End AggregatorFacts.

(** ** Sessions *)

Section Sessions.
Import Aggregator.

Context `{Composition}.

Lemma prune_NoDup (b : string) (c : AggregateCatalog) :
  NoDup (ids c) → NoDup (ids (prune b c)).
Proof.
  unfold ids, prune. simpl. intros Hnd.
  induction (entries c) as [|e l IH]; [done|].
  rewrite fmap_cons in Hnd. apply NoDup_cons in Hnd as [Hfresh Hnd].
  rewrite filter_cons. case_decide; [|by apply IH].
  rewrite fmap_cons. apply NoDup_cons. split; [|by apply IH].
  intros (x & Heq & [_ Hx]%list_elem_of_filter)%list_elem_of_fmap.
  apply Hfresh. rewrite Heq. by apply list_elem_of_fmap_2.
Qed.

Lemma merge_NoDup (b : string) (caps : list Capability) (c : AggregateCatalog) :
  NoDup (ids c) → NoDup (ids (merge b caps c)).
Proof.
  intros Hnd. unfold ids, merge. simpl.
  by apply insert_all_NoDup, (prune_NoDup b c).
Qed.

Lemma apply_NoDup (c : AggregateCatalog) (u : Update) :
  NoDup (ids c) → NoDup (ids (apply c u)).
Proof. destruct u; [apply merge_NoDup | apply prune_NoDup]. Qed.

Lemma session_NoDup (us : list Update) (c c' : AggregateCatalog) :
  NoDup (ids c) → c' ∈ session c us → NoDup (ids c').
Proof.
  revert c. induction us as [|u us IH]; intros c Hnd Hin.
  - by apply list_elem_of_singleton in Hin as ->.
  - simpl in Hin. apply elem_of_cons in Hin as [-> | Hin]; [done|].
    apply (IH (apply c u)); [by apply apply_NoDup | done].
Qed.



Lemma final_in_session (c : AggregateCatalog) (us : list Update) :
  foldl apply c us ∈ session c us.
Proof.
  revert c. induction us as [|u us IH]; intros c; [left|].
  simpl. right. apply IH.
Qed.

(** ** The reverse index along a session *)

Lemma indexed_owner_pruned (c : AggregateCatalog) (b : string)
    (e : CapabilityEntry) :
  indexed c → e ∈ entries (prune b c) → e ∈ entries c ∧ ownerBackend e ≠ b.
Proof.
  intros [_ Hidx] [Hout He]%list_elem_of_filter. split; [done|].
  rewrite Forall_forall in Hidx. intros <-. by apply Hout, Hidx.
Qed.

Lemma prune_indexed (c : AggregateCatalog) (b : string) :
  indexed c → indexed (prune b c).
Proof.
  intros Hc. split; [by apply prune_NoDup, Hc|].
  apply Forall_forall. intros e He.
  destruct (indexed_owner_pruned c b e Hc He) as [He' Hne].
  destruct Hc as [_ Hidx]. rewrite Forall_forall in Hidx.
  specialize (Hidx e He'). unfold owned in *. simpl.
  by rewrite lookup_delete_ne.
Qed.

Lemma merge_indexed (c : AggregateCatalog) (b : string)
    (caps : list Capability) :
  indexed c → indexed (merge b caps c).
Proof.
  intros Hc. split; [by apply merge_NoDup, Hc|].
  pose proof (prune_indexed c b Hc) as [_ Hidx1].
  rewrite Forall_forall in Hidx1.
  apply Forall_forall. intros e [He | He]%elem_of_insert_all.
  - destruct (indexed_owner_pruned c b e Hc He) as [_ Hne].
    specialize (Hidx1 e He). unfold owned in *. simpl in *.
    by rewrite lookup_insert_ne.
  - apply list_elem_of_fmap in He as (cap & -> & Hcap).
    unfold owned. simpl. rewrite lookup_insert_eq. simpl.
    apply elem_of_list_to_set, list_elem_of_fmap.
    exists (entry_of b cap). split; [done|]. by apply list_elem_of_fmap_2.
Qed.

Lemma session_indexed (us : list Update) (c c' : AggregateCatalog) :
  indexed c → c' ∈ session c us → indexed c'.
Proof.
  revert c. induction us as [|u us IH]; intros c Hc Hin.
  - by apply list_elem_of_singleton in Hin as ->.
  - simpl in Hin. apply elem_of_cons in Hin as [-> | Hin]; [done|].
    apply (IH (apply c u)); [|done].
    destruct u; [by apply merge_indexed | by apply prune_indexed].
Qed.

Lemma empty_indexed : indexed empty.
Proof. split; constructor. Qed.

(** ** Well-formed catalogs *)

(** In a well-formed catalog the reverse index records an entry's id for
    a backend exactly when the backend owns the entry. *)
Lemma owned_spec (c : AggregateCatalog) (e : CapabilityEntry) (b : string) :
  well_formed c → e ∈ entries c →
  aggregatedId e ∈ owned c b ↔ ownerBackend e = b.
Proof.
  intros (Hnd & Hentries & Hindex & _) He. split.
  - unfold owned. destruct (index c !! b) as [s|] eqn:Hs; simpl;
      [|by intros ?%not_elem_of_empty].
    intros Hin. specialize (Hindex b s Hs _ Hin).
    unfold owner_of, get in Hindex.
    destruct (find_entry _ _) as [e'|] eqn:Hfind; simplify_eq/=.
    apply find_entry_Some in Hfind as [He' Hid].
    by rewrite (same_id_same_entry _ _ _ Hnd He' He Hid).
  - intros <-. rewrite Forall_forall in Hentries.
    by destruct (Hentries e He).
Qed.

Lemma prune_entries (c : AggregateCatalog) (b : string) :
  well_formed c →
  entries (prune b c) = filter (λ e, ownerBackend e ≠ b) (entries c).
Proof.
  intros Hwf. unfold prune; simpl. apply filter_ext_elem.
  intros e He. by rewrite (owned_spec c e b Hwf He).
Qed.



(** The presentation of the pruned catalog is the presentation of the
    catalog without the entries of the pruned backend. *)
Lemma presented_prune (c : AggregateCatalog) (b : string) :
  well_formed c →
  presented (prune b c) = filter (λ e, ownerBackend e ≠ b) (presented c).
Proof.
  intros Hwf. unfold presented.
  rewrite (prune_entries c b Hwf), filter_bind. simpl.
  apply bind_filter_skip.
  - intros b' Hb'. rewrite other_owner_unpruned by done.
    symmetry. rewrite list_filter_filter.
    apply list_filter_iff. intros e. split; [by intros [_ ?] | ].
    intros <-. by split.
  - rewrite list_filter_filter. apply filter_none. by intros e [? ?].
Qed.

Lemma prune_well_formed (c : AggregateCatalog) (b : string) :
  well_formed c → well_formed (prune b c).
Proof.
  intros Hwf. pose proof (prune_entries c b Hwf) as Hp.
  pose proof Hwf as (Hnd & Hentries & Hindex & Hord & Hdom).
  pose proof (prune_NoDup b c Hnd) as Hnd'.
  split; [done|]. split; [|split; [|split]].
  - rewrite Forall_forall in Hentries. apply Forall_forall.
    intros e He. rewrite Hp in He.
    apply list_elem_of_filter in He as [Hne He].
    destruct (Hentries e He) as [Hid Hown]. split; [done|].
    unfold owned in *. simpl. by rewrite lookup_delete_ne.
  - intros b' s Hs id Hid. simpl in Hs.
    apply lookup_delete_Some in Hs as [Hne Hs].
    specialize (Hindex b' s Hs id Hid). unfold owner_of, get in *.
    destruct (find_entry id (entries c)) as [e|] eqn:Hfind; [|done].
    injection Hindex as Hown.
    apply find_entry_Some in Hfind as [He Hid'].
    assert (e ∈ entries (prune b c)) as He'.
    { rewrite Hp. apply list_elem_of_filter. split; [congruence | done]. }
    subst id. rewrite (find_entry_NoDup _ e Hnd' He'). simpl. by f_equal.
  - simpl. by apply NoDup_filter.
  - simpl. rewrite dom_delete_L, Hdom. apply set_eq. intros x.
    rewrite elem_of_difference, !elem_of_list_to_set, list_elem_of_filter,
      elem_of_singleton.
    tauto.
Qed.

Lemma empty_well_formed : well_formed empty.
Proof.
  split; [constructor|]. split; [constructor|].
  split; [apply map_Forall_empty|]. split; [constructor|].
  simpl. by rewrite dom_empty_L.
Qed.

Context `{!UniqueComposition}.

(** The ids composed for a backend are none of another backend's. *)
Lemma fresh_ids_disjoint (c : AggregateCatalog) (b : string)
    (caps : list Capability) (x : CapabilityEntry) :
  well_formed c → x ∈ entries c → ownerBackend x ≠ b →
  aggregatedId x ∉ aggregatedId <$> (entry_of b <$> caps).
Proof.
  intros (_ & Hentries & _) Hx Hne.
  intros (f & Hid & (cap & -> & _)%list_elem_of_fmap)%list_elem_of_fmap.
  rewrite Forall_forall in Hentries.
  destruct (Hentries x Hx) as [Hform _]. rewrite Hform in Hid. simpl in Hid.
  by destruct (compose_id_unique _ _ _ _ Hid).
Qed.

Lemma merge_well_formed (c : AggregateCatalog) (b : string)
    (caps : list Capability) :
  well_formed c → well_formed (merge b caps c).
Proof.
  intros Hwf.
  pose proof (prune_well_formed c b Hwf) as Hwf1.
  pose proof Hwf1 as (Hnd1 & Hentries1 & Hindex1 & Hord1 & Hdom1).
  pose proof (prune_entries c b Hwf) as Hp.
  assert (Hother : ∀ x, x ∈ entries (prune b c) → ownerBackend x ≠ b).
  { intros x. rewrite Hp. by intros [? _]%list_elem_of_filter. }
  assert (Hdisj : ∀ x, x ∈ entries (prune b c) →
            aggregatedId x ∉ aggregatedId <$> (entry_of b <$> caps)).
  { intros x Hx. apply (fresh_ids_disjoint (prune b c)); auto. }
  pose proof (merge_NoDup b caps c (proj1 Hwf)) as Hnd'.
  rewrite Forall_forall in Hentries1.
  destruct Hwf as (_ & _ & _ & Hord & Hdom).
  split; [done|]. split; [|split; [|split]].
  - apply Forall_forall. intros e [He | He]%elem_of_insert_all.
    + destruct (Hentries1 e He) as [Hid Hown]. split; [done|].
      unfold owned in *. simpl in *.
      by rewrite lookup_insert_ne by (symmetry; by apply Hother).
    + apply list_elem_of_fmap in He as (cap & -> & Hcap).
      split; [done|]. unfold owned. simpl. rewrite lookup_insert_eq. simpl.
      apply elem_of_list_to_set, list_elem_of_fmap.
      exists (entry_of b cap). split; [done|].
      by apply list_elem_of_fmap_2.
  - simpl. apply map_Forall_insert_2.
    + intros id Hid%elem_of_list_to_set.
      assert (id ∈ ids (merge b caps c)) as Hin
        by (apply insert_all_ids; by right).
      apply find_entry_elem in Hin as (e & Hfind & He & Heid).
      unfold owner_of, get. rewrite Hfind. simpl. f_equal.
      apply elem_of_insert_all in He as [He | He].
      * exfalso. apply (Hdisj e He). by rewrite Heid.
      * by apply list_elem_of_fmap in He as (cap & -> & _).
    + intros b' s Hs id Hid.
      specialize (Hindex1 b' s Hs id Hid). unfold owner_of, get in *.
      destruct (find_entry id (entries (prune b c))) as [e|] eqn:Hfind;
        [|done].
      injection Hindex1 as Hown.
      apply find_entry_Some in Hfind as [He Heid]. subst id.
      assert (e ∈ entries (merge b caps c)) as He'
        by (apply insert_all_keeps; auto).
      rewrite (find_entry_NoDup _ e Hnd' He'). simpl. by f_equal.
  - simpl. case_decide as Hin; [done|].
    apply NoDup_app. split; [done|]. split; [|apply NoDup_singleton].
    by intros x Hx ->%list_elem_of_singleton.
  - simpl. rewrite dom_insert_L, dom_delete_L, Hdom. apply set_eq. intros x.
    rewrite elem_of_union, elem_of_difference, elem_of_singleton.
    case_decide as Hin.
    + rewrite !elem_of_list_to_set.
      destruct (decide (x = b)) as [-> | Hne]; tauto.
    + rewrite list_to_set_app_L, elem_of_union, !elem_of_list_to_set,
        list_elem_of_singleton.
      destruct (decide (x = b)) as [-> | Hne]; tauto.
Qed.

Lemma apply_well_formed (c : AggregateCatalog) (u : Update) :
  well_formed c → well_formed (apply c u).
Proof.
  destruct u as [b caps | b]; simpl.
  - apply merge_well_formed.
  - apply prune_well_formed.
Qed.

(** Every catalog of a session is well formed. *)
Lemma session_well_formed (us : list Update) (c c' : AggregateCatalog) :
  well_formed c → c' ∈ session c us → well_formed c'.
Proof.
  revert c. induction us as [|u us IH]; intros c Hwf Hin.
  - by apply list_elem_of_singleton in Hin as ->.
  - simpl in Hin. apply elem_of_cons in Hin as [-> | Hin]; [done|].
    apply (IH (apply c u)); [by apply apply_well_formed | done].
Qed.




End Sessions.

(** ** Uniqueness and stability of aggregatedIds *)

Section CatalogClaims.
Import Aggregator.

Context `{UniqueComposition}.


(** ** Pruning *)

(** C4: in every catalog of a session, pruning a backend leaves exactly
    the entries of the other backends, in their order, in the mapping and
    in the presentation upstream: the entries of each other backend and
    the index line of each other backend are unchanged, nothing is
    recorded any more for the pruned backend, and a merge removes the
    previous entries of its backend in the same way before it inserts the
    new ones. *)
Theorem prune_frame (us : list Update) (c : AggregateCatalog) (b : string) :
  c ∈ session empty us →
  entries (prune b c) = filter (λ e, ownerBackend e ≠ b) (entries c) ∧
  presented (prune b c) = filter (λ e, ownerBackend e ≠ b) (presented c) ∧
  (∀ b', b' ≠ b →
     filter (λ e, ownerBackend e = b') (entries (prune b c)) =
     filter (λ e, ownerBackend e = b') (entries c)) ∧
  (∀ b', b' ≠ b → owned (prune b c) b' = owned c b') ∧
  owned (prune b c) b = ∅ ∧
  (∀ caps,
     entries (merge b caps c) =
     insert_all (entry_of b <$> caps)
       (filter (λ e, ownerBackend e ≠ b) (entries c))).
Proof.
  intros Hc.
  assert (Hwf : well_formed c)
    by (by apply (session_well_formed us empty), Hc; apply empty_well_formed).
  pose proof (prune_entries c b Hwf) as Hp.
  split; [done|]. split; [by apply presented_prune|].
  split; [|split; [|split]].
  - intros b' Hb'. rewrite Hp. by apply other_owner_unpruned.
  - intros b' Hb'. unfold owned, prune; simpl.
    by rewrite lookup_delete_ne.
  - unfold owned, prune; simpl. by rewrite lookup_delete_eq.
  - intros caps. unfold merge; simpl. by rewrite <- Hp.
Qed.

End CatalogClaims.

Section CatalogWitnesses.
Import Aggregator.

#[local] Existing Instance encoded.
#[local] Existing Instance encoded_unique.


Lemma prune_frame_witness :
  aggregatedId <$> presented two_backends =
    ["files::read"; "files::write"; "search::web"; "search::news"] ∧
  aggregatedId <$> presented (prune "files" two_backends) =
    ["search::web"; "search::news"].
Proof.
  split; [reflexivity|].
  by rewrite (proj1 (proj2 (prune_frame two_backends_session two_backends
    "files" (final_in_session empty two_backends_session)))).
Defined.

End CatalogWitnesses.

(** * Properties of the Request Router *)

Section RouterClaims.
Import Aggregator Router.

Context `{Composition}.

Lemma handleInvoke_miss (backends : Backends) (c : AggregateCatalog)
    (id payload : string) :
  id ∉ ids c →
  handleInvoke backends c id payload = ([], Failure UnknownCapability).
Proof.
  intros Hid. unfold handleInvoke, get.
  by rewrite (proj2 (find_entry_None id (entries c)) Hid).
Qed.


(** After the prune of its owner, the id of an entry is absent. *)
Lemma pruned_ids (c : AggregateCatalog) (e : CapabilityEntry) :
  indexed c → e ∈ entries c →
  aggregatedId e ∉ ids (prune (ownerBackend e) c).
Proof.
  intros [Hnd Hidx] He.
  intros (x & Hid & [Hout Hx]%list_elem_of_filter)%list_elem_of_fmap.
  rewrite Forall_forall in Hidx.
  rewrite <- (same_id_same_entry _ _ _ Hnd He Hx Hid) in Hout.
  by apply Hout, Hidx.
Qed.

(** C3: [handleInvoke] on an aggregatedId that the catalog does not hold
    answers [UnknownCapability] and forwards nothing, so that there is no
    call to wait for and no retry; at any moment of a session this is the
    case for the id of an entry as soon as its owning backend is
    pruned. *)
Theorem handleInvoke_unknown (backends : Backends) (payload : string) :
  (∀ c id, id ∉ ids c →
     handleInvoke backends c id payload = ([], Failure UnknownCapability)) ∧
  (∀ us c e, c ∈ session empty us → e ∈ entries c →
     handleInvoke backends (prune (ownerBackend e) c) (aggregatedId e) payload
     = ([], Failure UnknownCapability)).
Proof.
  split.
  - intros c id. apply handleInvoke_miss.
  - intros us c e Hc He. apply handleInvoke_miss, pruned_ids; [|done].
    by apply (session_indexed us empty c empty_indexed).
Qed.

Context `{!UniqueComposition}.


End RouterClaims.

Section RouterWitnesses.
Import Aggregator Router.

Lemma handleInvoke_unknown_witness :
  let two_backends := @two_backends separated in
  handleInvoke echo two_backends "files::delete" "{}" =
    ([], Failure UnknownCapability) ∧
  handleInvoke echo (prune "files" two_backends) "files::read" "{}" =
    ([], Failure UnknownCapability).
Proof.
  intros two_backends.
  assert (Habsent : "files::delete" ∉ ids two_backends)
    by (apply (bool_decide_unpack _); by vm_compute).
  assert (Hread : @entry_of separated "files" (tool "read") ∈
                  entries two_backends)
    by (vm_compute; left).
  destruct (@handleInvoke_unknown separated echo "{}") as [Hmiss Hpruned].
  split.
  - exact (Hmiss _ _ Habsent).
  - exact (Hpruned two_backends_session two_backends _
             (final_in_session empty two_backends_session) Hread).
Defined.

#[local] Existing Instance encoded.
#[local] Existing Instance encoded_unique.


End RouterWitnesses.

(** * Further properties of [auth.ts] *)

(** X1: whatever the answer, [authenticateAndGetServers] sends one request
    and nothing else: a [GET] of [/servers] under [CLIENT_API_URL], which
    is the environment variable when it is set and not empty and
    [http://localhost:8000/api] otherwise, with the API key as bearer
    token; it logs nothing and does not repeat the request. *)
Theorem authenticate_single_request (w : World) (apiKey : string) :
  (authenticateAndGetServers apiKey w).1 =
    [HttpGet (CLIENT_API_URL w +:+ "/servers") ("Bearer " +:+ apiKey)] ∧
  (truthy (process_env w "CLIENT_API_URL") = false →
   CLIENT_API_URL w = "http://localhost:8000/api") ∧
  (∀ base, process_env w "CLIENT_API_URL" = Some base → base ≠ "" →
   CLIENT_API_URL w = base).
Proof.
  split; [apply authenticate_trace|]. unfold CLIENT_API_URL, truthy, or_else.
  split.
  - destruct (process_env w "CLIENT_API_URL") as [base|]; [|done].
    by destruct (String.eqb base "").
  - intros base -> Hne. destruct (String.eqb base "") eqn:Heq; [|done].
    by apply String.eqb_eq in Heq.
Qed.

Lemma authenticate_single_request_witness :
  (authenticateAndGetServers "k-123" offline).1 =
  [HttpGet "http://localhost:8000/api/servers" "Bearer k-123"].
Proof.
  destruct (authenticate_single_request offline "k-123") as (Ht & Hdef & _).
  rewrite Ht, (Hdef eq_refl). reflexivity.
Defined.

(** X2: a rejection of [authenticateAndGetServers] is never an Axios
    error: every Axios error is replaced by a plain [Error], so that the
    caller cannot read the HTTP status from what it catches. *)
Theorem authenticate_rejection_plain (w : World) (apiKey : string)
    (e : JsError) :
  (authenticateAndGetServers apiKey w).2 = Rejected e →
  isAxiosError e = false ∧ response_status e = None.
Proof.
  destruct (resolver_answer w apiKey) as [err | [| | resp]] eqn:Hans.
  - rewrite (authenticate_rejected _ _ _ Hans). intros [= <-].
    destruct (isAxiosError err) eqn:Hax.
    + by repeat case_match.
    + split; [done|]. by destruct err.
  - rewrite (authenticate_no_body _ _ _ Hans) by done. by intros [= <-].
  - rewrite (authenticate_no_body _ _ _ Hans) by done. by intros [= <-].
  - rewrite (authenticate_resolved _ _ _ Hans).
    destruct (success resp); [done|]. by intros [= <-].
Qed.

Lemma authenticate_rejection_plain_witness :
  (authenticateAndGetServers "k-123"
     (with_resolver (inl (AxiosError (Some 500) "Request failed")))).2 =
    Rejected (Error "Auth error: Request failed") ∧
  isAxiosError (Error "Auth error: Request failed") = false.
Proof.
  split; [reflexivity|].
  exact (proj1 (authenticate_rejection_plain
    (with_resolver (inl (AxiosError (Some 500) "Request failed")))
    "k-123" _ eq_refl)).
Defined.

(** * Further properties of [config.ts] *)

Lemma loadConfig_file_run (w : World) (apiKey : option string) :
  truthy apiKey = false →
  loadConfig apiKey w =
  match readFile w (configPath w) with
  | inl e =>
      ([ConsoleLog ("Load config from: " +:+ configPath w);
        ReadFile (configPath w);
        ConsoleError "Error in loading config.json:" e],
       Resolved {| servers := [] |})
  | inr fileContents =>
      match JSON_parse w fileContents with
      | inl e =>
          ([ConsoleLog ("Load config from: " +:+ configPath w);
            ReadFile (configPath w);
            ConsoleError "Error in loading config.json:" e],
           Resolved {| servers := [] |})
      | inr config =>
          ([ConsoleLog ("Load config from: " +:+ configPath w);
            ReadFile (configPath w)],
           Resolved config)
      end
  end.
Proof.
  intros Hkey. unfold loadConfig, configPath. rewrite Hkey.
  unfold_async. simpl.
  destruct (readFile w _) as [e | contents]; simpl; [reflexivity|].
  destruct (JSON_parse w contents) as [e | config]; reflexivity.
Qed.

(** X3: without an API key, [loadConfig] announces and reads one file and
    no other: the path in [MCP_CONFIG_PATH] when that variable is set and
    not empty, [config.json] in the working directory otherwise; it sends
    no request to the resolver. *)
Theorem loadConfig_file_path (w : World) (apiKey : option string) :
  truthy apiKey = false →
  filter is_read (loadConfig apiKey w).1 = [ReadFile (configPath w)] ∧
  filter is_request (loadConfig apiKey w).1 = [] ∧
  head (loadConfig apiKey w).1 =
    Some (ConsoleLog ("Load config from: " +:+ configPath w)) ∧
  (∀ path, process_env w "MCP_CONFIG_PATH" = Some path → path ≠ "" →
     configPath w = path) ∧
  (truthy (process_env w "MCP_CONFIG_PATH") = false →
     configPath w = path_resolve (process_cwd w) "config.json").
Proof.
  intros Hkey. rewrite (loadConfig_file_run _ _ Hkey).
  split; [|split; [|split; [|split]]].
  1-3: destruct (readFile w _) as [e | contents]; [done|];
       by destruct (JSON_parse w contents).
  - unfold configPath, or_else. intros path -> Hne.
    destruct (String.eqb path "") eqn:Heq; [|done].
    by apply String.eqb_eq in Heq.
  - unfold configPath, or_else, truthy.
    destruct (process_env w "MCP_CONFIG_PATH") as [path|]; [|done].
    by destruct (String.eqb path "").
Qed.

Lemma loadConfig_file_path_witness :
  filter is_read (loadConfig None with_config_file).1 =
  [ReadFile "/srv/proxy/config.json"].
Proof.
  destruct (loadConfig_file_path with_config_file None eq_refl)
    as (Hread & _ & _ & _ & Hdefault).
  rewrite Hread, (Hdefault eq_refl). reflexivity.
Defined.

(** X4: without an API key, when the file can be read and its contents
    parsed, [loadConfig] resolves to the parsed configuration as it is and
    logs no error; it logs an error, once, exactly when it falls back to
    the empty server list because reading or parsing failed. *)
Theorem loadConfig_file_result (w : World) (apiKey : option string) :
  truthy apiKey = false →
  (∀ fileContents config,
     readFile w (configPath w) = inr fileContents →
     JSON_parse w fileContents = inr config →
     (loadConfig apiKey w).2 = Resolved config ∧
     filter is_error_log (loadConfig apiKey w).1 = []) ∧
  (∀ e,
     (readFile w (configPath w) = inl e ∨
      ∃ fileContents, readFile w (configPath w) = inr fileContents ∧
                      JSON_parse w fileContents = inl e) →
     (loadConfig apiKey w).2 = Resolved {| servers := [] |} ∧
     filter is_error_log (loadConfig apiKey w).1 =
       [ConsoleError "Error in loading config.json:" e]).
Proof.
  intros Hkey. rewrite (loadConfig_file_run _ _ Hkey). split.
  - by intros contents config -> ->.
  - intros e [-> | (contents & -> & ->)]; done.
Qed.

Lemma loadConfig_file_result_witness :
  (loadConfig None with_config_file).2 =
    Resolved {| servers := [files_backend; search_backend] |} ∧
  filter is_error_log (loadConfig None offline).1 =
    [ConsoleError "Error in loading config.json:" (SystemError "ENOENT")].
Proof.
  split.
  - exact (proj1 (proj1 (loadConfig_file_result with_config_file None eq_refl)
             "config" _ eq_refl eq_refl)).
  - exact (proj2 (proj2 (loadConfig_file_result offline None eq_refl)
             (SystemError "ENOENT") (or_introl eq_refl))).
Defined.

(** X5: with an API key, [loadConfig] sends the one request of the resolver
    call and logs an error, once and under the label of the key branch,
    exactly when that call rejects; the error logged is the error
    rethrown. *)
Theorem loadConfig_keyed_trace (w : World) (apiKey : option string) :
  truthy apiKey = true →
  filter is_request (loadConfig apiKey w).1 =
    [HttpGet (CLIENT_API_URL w +:+ "/servers")
       ("Bearer " +:+ default "" apiKey)] ∧
  match (loadConfig apiKey w).2 with
  | Resolved _ => filter is_error_log (loadConfig apiKey w).1 = []
  | Rejected e =>
      filter is_error_log (loadConfig apiKey w).1 =
        [ConsoleError "Auth error with API key:" e]
  end.
Proof.
  intros Hkey. rewrite (loadConfig_keyed_unfold _ _ Hkey).
  pose proof (authenticate_trace w (default "" apiKey)) as Ht.
  destruct (authenticateAndGetServers _ w) as [t [s | e]];
    simpl in *; subst t; done.
Qed.

Lemma loadConfig_keyed_trace_witness :
  filter is_error_log
    (loadConfig (Some "k-123")
       (with_resolver (inl (AxiosError (Some 403) "Request failed")))).1 =
  [ConsoleError "Auth error with API key:" (Error "No permission")].
Proof.
  exact (proj2 (loadConfig_keyed_trace
    (with_resolver (inl (AxiosError (Some 403) "Request failed")))
    (Some "k-123") eq_refl)).
Defined.

(** X6: [loadConfig] contacts the resolver exactly when the API key is a
    non-empty string, and reads the configuration file exactly when it is
    not: an API key that is the empty string is treated as no key. *)
Theorem loadConfig_branch (w : World) (apiKey : option string) :
  (filter is_request (loadConfig apiKey w).1 ≠ [] ↔ truthy apiKey = true) ∧
  (filter is_read (loadConfig apiKey w).1 ≠ [] ↔ truthy apiKey = false) ∧
  (truthy apiKey = true ↔ ∃ key, apiKey = Some key ∧ key ≠ "") ∧
  loadConfig (Some "") w = loadConfig None w.
Proof.
  assert (Hcases : truthy apiKey = true ∧
            filter is_request (loadConfig apiKey w).1 ≠ [] ∧
            filter is_read (loadConfig apiKey w).1 = [] ∨
          truthy apiKey = false ∧
            filter is_request (loadConfig apiKey w).1 = [] ∧
            filter is_read (loadConfig apiKey w).1 ≠ []).
  { destruct (truthy apiKey) eqn:Hkey; [left | right]; (split; [done|]).
    - rewrite (loadConfig_keyed_unfold _ _ Hkey).
      pose proof (authenticate_trace w (default "" apiKey)) as Ht.
      destruct (authenticateAndGetServers _ w) as [t [s | e]];
        simpl in *; subst t; done.
    - rewrite (loadConfig_file_run _ _ Hkey).
      destruct (readFile w _) as [e | contents]; [done|].
      by destruct (JSON_parse w contents). }
  split; [|split; [|split]].
  - destruct Hcases as [(-> & Hreq & _) | (-> & -> & _)]; done.
  - destruct Hcases as [(-> & _ & ->) | (-> & _ & Hread)]; done.
  - unfold truthy. destruct apiKey as [key|].
    + destruct (String.eqb key "") eqn:Heq; simpl.
      * apply String.eqb_eq in Heq. split; [done|].
        by intros (key' & [= <-] & Hne).
      * apply String.eqb_neq in Heq. split; [|done]. intros _. by exists key.
    + split; [done|]. by intros (key & [=] & _).
  - reflexivity.
Qed.

(** * Further properties of the bootstraps *)

Lemma loadConfig_not_closing (w : World) (apiKey : option string) :
  Forall (λ ev, ¬ closing ev) (loadConfig apiKey w).1.
Proof.
  destruct (truthy apiKey) eqn:Hkey.
  - rewrite (loadConfig_keyed_unfold _ _ Hkey).
    pose proof (authenticate_trace w (default "" apiKey)) as Ht.
    destruct (authenticateAndGetServers _ w) as [t [s | e]];
      simpl in *; subst t; repeat constructor; by intros [].
  - rewrite (loadConfig_file_run _ _ Hkey).
    destruct (readFile w _) as [e | contents];
      [repeat constructor; by intros []|].
    destruct (JSON_parse w contents); repeat constructor; by intros [].
Qed.

Lemma createServer_step_not_closing (w : World) (apiKey : option string)
    (s : Startup) :
  Forall (λ ev, ¬ closing ev) (createServer_step w apiKey s).1.
Proof.
  destruct s as [|[|d todo] connected|connected|e]; simpl;
    try by constructor.
  - pose proof (settled_Forall _ _ (loadConfig_not_closing w apiKey)) as Hn.
    by destruct (loadConfig apiKey w) as [t [config | e]].
  - destruct (backend_reachable w (name d)); repeat constructor; by intros [].
Qed.

Lemma createServer_start_not_closing (w : World) (apiKey : option string) :
  Forall (λ ev, ¬ closing ev) (createServer_start w apiKey).
Proof. apply issued_Forall, loadConfig_not_closing. Qed.

Ltac not_closing :=
  repeat (apply Forall_app; split); repeat constructor;
  try done; try (by intros []).

Lemma stdio_step_closes (w : World) (st : Stdio.State) (i : Stdio.Input) :
  (Stdio.status st ≠ Exited 0 →
   Forall (λ ev, ¬ closing ev) (Stdio.trace st)) →
  Stdio.status (Stdio.step w st i) ≠ Exited 0 →
  Forall (λ ev, ¬ closing ev) (Stdio.trace (Stdio.step w st i)).
Proof.
  intros Hst. unfold Stdio.step.
  destruct (Stdio.status st) eqn:Hstatus; [|by rewrite Hstatus..].
  specialize (Hst ltac:(done)).
  destruct i.
  - pose proof (createServer_step_not_closing w (Stdio.apiKey w)
                  (Stdio.startup st)) as Hstep.
    destruct (createServer_step w (Stdio.apiKey w) _) as [t s]. simpl in Hstep.
    destruct s; [| |destruct (Stdio.sigint_handler st);
                     [|destruct (server_connect w 0)]|];
      simpl; intros _; not_closing.
  - destruct (Stdio.sigint_handler st); simpl; [done|]. by intros _.
Qed.

Lemma sse_step_closes (w : World) (st : Sse.State) (i : Sse.Input) :
  (Sse.status st ≠ Exited 0 → Forall (λ ev, ¬ closing ev) (Sse.trace st)) →
  Sse.status (Sse.step w st i) ≠ Exited 0 →
  Forall (λ ev, ¬ closing ev) (Sse.trace (Sse.step w st i)).
Proof.
  intros Hst. unfold Sse.step, Sse.log, Sse.exit, Sse.reject.
  destruct (Sse.status st) eqn:Hstatus; [|by rewrite Hstatus..].
  specialize (Hst ltac:(done)).
  destruct i as [| |res|body rejection|].
  - pose proof (createServer_step_not_closing w (Sse.apiKey w)
                  (Sse.startup st)) as Hstep.
    destruct (createServer_step w (Sse.apiKey w) _) as [t s]. simpl in Hstep.
    destruct s; simpl; intros _; not_closing.
  - by destruct (Sse.cleanupFunction st).
  - destruct (Sse.routes st); [destruct (server_connect w res)|];
      simpl; intros _; not_closing.
  - destruct (Sse.routes st);
      [destruct (Sse.transport st); [destruct rejection|]|];
      simpl; intros _; not_closing.
  - destruct (Sse.onclose st); [case_bool_decide|]; simpl; try done;
      intros _; not_closing.
Qed.

(** X7: Backend Connections and the MCP server are closed only on the way
    to exit code 0: in both bootstraps, a process that is still running,
    that was ended by a signal or that exited with code 1 has closed
    nothing, whatever [createServer] had opened; the [catch] blocks only
    log and exit. *)
Theorem closes_only_before_exit_zero (w : World) :
  (∀ ins, let st := Stdio.run w (Stdio.init w) ins in
     Stdio.status st ≠ Exited 0 →
     Forall (λ ev, ¬ closing ev) (Stdio.trace st)) ∧
  (∀ ins, let st := Sse.run w (Sse.init w) ins in
     Sse.status st ≠ Exited 0 →
     Forall (λ ev, ¬ closing ev) (Sse.trace st)).
Proof.
  split.
  - intros ins. unfold Stdio.run.
    induction ins as [|i ins IH] using rev_ind.
    + intros _. apply createServer_start_not_closing.
    + rewrite foldl_app. simpl. by apply stdio_step_closes.
  - intros ins. unfold Sse.run.
    induction ins as [|i ins IH] using rev_ind.
    + intros _. simpl. apply Forall_app.
      split; [apply createServer_start_not_closing | not_closing].
    + rewrite foldl_app. simpl. by apply sse_step_closes.
Qed.

Lemma closes_only_before_exit_zero_witness :
  let st := Stdio.run connect_refused (Stdio.init connect_refused)
              [Stdio.Tick; Stdio.Tick; Stdio.Tick; Stdio.Tick] in
  Stdio.status st = Exited 1 ∧
  Stdio.open_backends st = ["files"; "search"] ∧
  Forall (λ ev, ¬ closing ev) (Stdio.trace st).
Proof.
  split; [reflexivity|]. split; [reflexivity|].
  by apply (proj1 (closes_only_before_exit_zero connect_refused)
           [Stdio.Tick; Stdio.Tick; Stdio.Tick; Stdio.Tick]).
Defined.

(** X8: in the stdio bootstrap, when [createServer] has resolved and
    [server.connect] rejects, the [catch] block of [main] logs that error
    and the process exits with code 1; the [SIGINT] listener is never
    installed and the connections that [createServer] opened stay open. *)
Theorem stdio_connect_rejected (w : World) (ins : list Stdio.Input)
    (connected : list string) (error : JsError) :
  let st := Stdio.run w (Stdio.init w) ins in
  Stdio.status st = Running →
  Stdio.startup st = Connecting [] connected →
  server_connect w 0%nat = Some error →
  let st' := Stdio.step w st Stdio.Tick in
  Stdio.status st' = Exited 1 ∧
  Stdio.trace st' =
    Stdio.trace st ++
    [ServerConnect 0; ConsoleError "Server error:" error; ProcessExit 1] ∧
  Stdio.sigint_handler st' = None ∧
  Stdio.open_backends st' = connected.
Proof.
  intros st Hrun Hs Hconn st'.
  pose proof (stdio_run_invariant w _ ins (stdio_init_invariant w)) as Hinv.
  fold st in Hinv. unfold stdio_invariant in Hinv.
  rewrite Hrun, Hs in Hinv. destruct Hinv as [Hopen Hh].
  unfold st', Stdio.step. rewrite Hrun, Hs. simpl. rewrite Hh, Hconn.
  unfold Stdio.on_error; simpl. split; [done|]. split; [done|].
  split; [done|].
  by rewrite stdio_open_backends_log, Hopen.
Qed.

Lemma stdio_connect_rejected_witness :
  let st := Stdio.run connect_refused (Stdio.init connect_refused)
              [Stdio.Tick; Stdio.Tick; Stdio.Tick] in
  Stdio.open_backends (Stdio.step connect_refused st Stdio.Tick) =
  ["files"; "search"].
Proof.
  exact (proj2 (proj2 (proj2 (stdio_connect_rejected connect_refused
    [Stdio.Tick; Stdio.Tick; Stdio.Tick] ["files"; "search"]
    (Error "Already connected") eq_refl eq_refl eq_refl)))).
Defined.



Lemma sse_onclose_created (w : World) (ins : list Sse.Input) :
  let st := Sse.run w (Sse.init w) ins in
  Sse.status st = Running → Sse.onclose st = true →
  Sse.cleanupFunction st = Some (Sse.open_backends st) ∧
  Sse.routes st = true.
Proof.
  intros st Hrun Ho.
  pose proof (sse_run_invariant w _ ins (sse_init_invariant w)) as Hinv.
  fold st in Hinv. unfold sse_invariant in Hinv. rewrite Hrun in Hinv.
  destruct (Sse.startup st) as [|todo connected|connected|e]; [| | |done].
  - destruct Hinv as (_ & _ & _ & _ & Ho'). congruence.
  - destruct Hinv as (_ & _ & _ & _ & Ho'). congruence.
  - destruct Hinv as (-> & -> & ->). done.
Qed.

(** X11: when the MCP server reports that it closed, the SSE bootstrap
    runs cleanup, closes the server and exits with code 0, with every
    Backend Connection closed, unless [KEEP_SERVER_OPEN] is exactly [1]:
    then it only logs, and the process keeps running with its
    connections, routes and [transport] as they were.  Before any
    [GET /sse] connected the server there is no such handler. *)
Theorem sse_server_closed (w : World) (ins : list Sse.Input) :
  let st := Sse.run w (Sse.init w) ins in
  let st' := Sse.step w st Sse.ServerClosed in
  Sse.status st = Running →
  (Sse.onclose st = false → st' = st) ∧
  (Sse.onclose st = true →
   process_env w "KEEP_SERVER_OPEN" = Some "1" →
   st' = Sse.log st [ConsoleLog "Server closed"] ∧
   Sse.status st' = Running ∧
   Sse.open_backends st' = Sse.open_backends st) ∧
  (Sse.onclose st = true →
   process_env w "KEEP_SERVER_OPEN" ≠ Some "1" →
   Sse.status st' = Exited 0 ∧
   Sse.trace st' =
     Sse.trace st ++ ConsoleLog "Server closed" ::
     (CloseBackend <$> Sse.open_backends st) ++ [ServerClose; ProcessExit 0] ∧
   Sse.open_backends st' = []).
Proof.
  intros st st' Hrun. unfold st', Sse.step. rewrite Hrun.
  split; [|split].
  - by intros ->.
  - intros -> Hkeep. rewrite bool_decide_eq_false_2 by (by intros []).
    split; [done|]. split; [done|].
    unfold Sse.log. by rewrite sse_open_backends_log.
  - intros Ho Hkeep. rewrite Ho, bool_decide_eq_true_2 by done.
    destruct (sse_onclose_created w ins Hrun Ho) as [Hc _].
    fold st in Hc. rewrite Hc. unfold Sse.exit. simpl.
    split; [done|]. split; [by rewrite <- app_assoc|].
    rewrite sse_open_backends_log.
    change (opened_after (Sse.open_backends st)
              ((cleanup (Sse.open_backends st) ++ [ServerClose]) ++
               [ProcessExit 0]) = []).
    by rewrite !opened_after_app, opened_after_cleanup.
Qed.

Lemma sse_server_closed_witness :
  let ins := [Sse.Tick; Sse.Tick; Sse.Tick; Sse.Tick; Sse.GetSse 1%nat] in
  Sse.status (Sse.step keep_open (Sse.run keep_open (Sse.init keep_open) ins)
                Sse.ServerClosed) = Running ∧
  Sse.open_backends
    (Sse.step with_config_file
       (Sse.run with_config_file (Sse.init with_config_file) ins)
       Sse.ServerClosed) = [].
Proof.
  intros ins. split.
  - exact (proj1 (proj2 (proj1 (proj2 (sse_server_closed keep_open ins
             eq_refl)) eq_refl eq_refl))).
  - exact (proj2 (proj2 (proj2 (proj2 (sse_server_closed with_config_file ins
             eq_refl)) eq_refl ltac:(done)))).
Defined.

Lemma sse_running_not_closing (w : World) (ins : list Sse.Input) :
  let st := Sse.run w (Sse.init w) ins in
  Sse.status st ≠ Exited 0 → Forall (λ ev, ¬ closing ev) (Sse.trace st).
Proof.
  unfold Sse.run. induction ins as [|i ins IH] using rev_ind.
  - intros _. simpl. apply Forall_app.
    split; [apply createServer_start_not_closing | not_closing].
  - rewrite foldl_app. simpl. by apply sse_step_closes.
Qed.

Lemma ServerClose_not_in_cleanup (connected : list string) :
  ServerClose ∉ cleanup connected.
Proof. by intros (b & [=] & _)%list_elem_of_fmap. Qed.

Lemma ServerClose_not_closing (t : list Event) :
  Forall (λ ev, ¬ closing ev) t → ServerClose ∉ t.
Proof. rewrite Forall_forall. intros Ht Hin. by apply (Ht _ Hin). Qed.

Ltac absent Hin :=
  repeat first [ apply elem_of_app in Hin as [Hin | Hin]
               | apply elem_of_cons in Hin as [Hin | Hin] ];
  first [ done | by apply elem_of_nil in Hin ].

Lemma sse_step_server_close (w : World) (st : Sse.State) (i : Sse.Input) :
  Sse.status st = Running → ServerClose ∉ Sse.trace st →
  ServerClose ∈ Sse.trace (Sse.step w st i) →
  Sse.status (Sse.step w st i) = Exited 0 ∧
  ConsoleLog "Server closed" ∈ Sse.trace (Sse.step w st i) ∧
  process_env w "KEEP_SERVER_OPEN" ≠ Some "1".
Proof.
  intros Hrun Hprev. unfold Sse.step, Sse.log, Sse.exit, Sse.reject.
  rewrite Hrun.
  destruct i as [| |res|body rejection|].
  - pose proof (createServer_step_not_closing w (Sse.apiKey w)
                  (Sse.startup st)) as Hstep.
    apply ServerClose_not_closing in Hstep.
    destruct (createServer_step w (Sse.apiKey w) _) as [t s]. simpl in Hstep.
    destruct s; simpl; intros Hin; exfalso; absent Hin.
  - destruct (Sse.cleanupFunction st) as [connected|]; simpl;
      intros Hin; exfalso.
    + pose proof (ServerClose_not_in_cleanup connected). absent Hin.
    + absent Hin.
  - destruct (Sse.routes st); [destruct (server_connect w res)|]; simpl;
      intros Hin; exfalso; absent Hin.
  - destruct (Sse.routes st);
      [destruct (Sse.transport st); [destruct rejection|]|]; simpl;
      intros Hin; exfalso; absent Hin.
  - destruct (Sse.onclose st); [|done].
    case_bool_decide as Hkeep; simpl.
    + intros _. split; [done|]. split; [|done].
      apply elem_of_app. right. left.
    + intros Hin. exfalso. absent Hin.
Qed.

(** X12: in the SSE bootstrap the MCP server is closed by the
    [server.onclose] handler alone: under every schedule, if
    [server.close()] was called then the server had reported that it
    closed, [KEEP_SERVER_OPEN] was not [1] and the process exited with code
    0; the [SIGINT] listener exits without closing the server. *)
Theorem sse_server_close_only_onclose (w : World) (ins : list Sse.Input) :
  let st := Sse.run w (Sse.init w) ins in
  (ServerClose ∈ Sse.trace st →
   Sse.status st = Exited 0 ∧
   ConsoleLog "Server closed" ∈ Sse.trace st ∧
   process_env w "KEEP_SERVER_OPEN" ≠ Some "1") ∧
  (Sse.status st = Running →
   ServerClose ∉ Sse.trace (Sse.step w st Sse.Sigint)).
Proof.
  intros st. split.
  - unfold st, Sse.run. clear st.
    induction ins as [|i ins IH] using rev_ind.
    + intros Hin. exfalso.
      pose proof (sse_running_not_closing w []) as Hinit.
      by apply (ServerClose_not_closing _ (Hinit ltac:(done))).
    + rewrite foldl_app. simpl.
      pose proof (sse_running_not_closing w ins) as Hprev.
      unfold Sse.run in Hprev. simpl in Hprev.
      set (prev := foldl (Sse.step w) (Sse.init w) ins) in *.
      destruct (Sse.status prev) eqn:Hstatus.
      * apply sse_step_server_close; [done|].
        by apply ServerClose_not_closing, Hprev.
      * replace (Sse.step w prev i) with prev; [by rewrite Hstatus|].
        unfold Sse.step. by rewrite Hstatus.
      * replace (Sse.step w prev i) with prev; [by rewrite Hstatus|].
        unfold Sse.step. by rewrite Hstatus.
  - intros Hrun Hin.
    pose proof (sse_running_not_closing w ins) as Hprev. fold st in Hprev.
    apply ServerClose_not_closing in Hprev; [|by rewrite Hrun].
    unfold Sse.step, Sse.exit in Hin. rewrite Hrun in Hin.
    destruct (Sse.cleanupFunction st) as [connected|]; simpl in Hin.
    + pose proof (ServerClose_not_in_cleanup connected). absent Hin.
    + absent Hin.
Qed.

Lemma sse_server_close_only_onclose_witness :
  let w := with_config_file in
  let st := Sse.run w (Sse.init w)
              [Sse.Tick; Sse.Tick; Sse.Tick; Sse.Tick; Sse.GetSse 1%nat] in
  Sse.status (Sse.step w st Sse.Sigint) = Exited 0 ∧
  ServerClose ∉ Sse.trace (Sse.step w st Sse.Sigint).
Proof.
  intros w st. split; [reflexivity|].
  exact (proj2 (sse_server_close_only_onclose w
    [Sse.Tick; Sse.Tick; Sse.Tick; Sse.Tick; Sse.GetSse 1%nat]) eq_refl).
Defined.

Lemma sse_step_transport_kept (w : World) (st : Sse.State) (i : Sse.Input) :
  is_Some (Sse.transport st) → is_Some (Sse.transport (Sse.step w st i)).
Proof.
  intros Ht. unfold Sse.step, Sse.log, Sse.exit, Sse.reject.
  repeat case_match; simpl; done || by eexists.
Qed.

(** X13: once assigned, the module variable [transport] of the SSE
    bootstrap is never cleared: whatever happens afterwards it holds some
    transport; in particular, when the server reports that it closed and
    [KEEP_SERVER_OPEN] is [1], the transport of the client that left stays
    in place and [handlePostMessage] of a later [POST /message] is still
    called on it; when that call rejects, the process ends with exit
    code 1. *)
Theorem sse_transport_never_cleared (w : World) (st : Sse.State) :
  (∀ ins, is_Some (Sse.transport st) →
     is_Some (Sse.transport (Sse.run w st ins))) ∧
  (∀ t body rejection,
     Sse.status st = Running → Sse.routes st = true →
     Sse.transport st = Some t →
     process_env w "KEEP_SERVER_OPEN" = Some "1" →
     let st' := Sse.step w st Sse.ServerClosed in
     let st'' := Sse.step w st' (Sse.PostMessage body rejection) in
     Sse.status st' = Running ∧ Sse.transport st' = Some t ∧
     Sse.trace st'' =
       Sse.trace st' ++ [ConsoleLog "Got message"; Delivered t body] ++
       match rejection with
       | Some error => [HandlerRejected error]
       | None => []
       end ∧
     Sse.status st'' =
       match rejection with
       | Some _ => Exited 1
       | None => Running
       end).
Proof.
  split.
  - intros ins. revert st. induction ins as [|i ins IH]; intros st Ht; [done|].
    simpl. by apply IH, sse_step_transport_kept.
  - intros t body rejection Hrun Hr Ht Hkeep st' st''.
    assert (Sse.status st' = Running ∧ Sse.transport st' = Some t ∧
            Sse.routes st' = true) as (Hrun' & Ht' & Hr').
    { unfold st', Sse.step. rewrite Hrun.
      destruct (Sse.onclose st); [|done].
      by rewrite bool_decide_eq_false_2 by (by intros []). }
    split; [done|]. split; [done|].
    pose proof (sse_post_message w st' body rejection Hrun' Hr') as Hpost.
    by rewrite Ht' in Hpost.
Qed.

Lemma sse_transport_never_cleared_witness :
  let w := keep_open in
  let st := Sse.run w (Sse.init w)
              [Sse.Tick; Sse.Tick; Sse.Tick; Sse.Tick; Sse.GetSse 1%nat] in
  let st' := Sse.step w st Sse.ServerClosed in
  Sse.status
    (Sse.step w st'
       (Sse.PostMessage "ping" (Some (Error "SSE connection not established"))))
  = Exited 1.
Proof.
  intros w st st'.
  exact (proj2 (proj2 (proj2 (proj2 (sse_transport_never_cleared w st) 1%nat
    "ping" (Some (Error "SSE connection not established"))
    eq_refl eq_refl eq_refl eq_refl)))).
Defined.

Lemma config_events_app (t1 t2 : list Event) :
  config_events (t1 ++ t2) = config_events t1 ++ config_events t2.
Proof. apply filter_app. Qed.

Lemma config_events_extend (t1 t2 l : list Event) :
  config_events t1 = l → config_events t2 = [] →
  config_events (t1 ++ t2) = l.
Proof. intros <- H2. by rewrite config_events_app, H2, app_nil_r. Qed.

Lemma config_events_none (t : list Event) :
  Forall (λ ev, is_request ev || is_read ev = false) t →
  config_events t = [].
Proof.
  induction 1 as [|ev t Hev _ IH]; [done|].
  unfold config_events in *. rewrite filter_cons.
  destruct (decide _) as [Hyes|]; [|done]. by rewrite Hev in Hyes.
Qed.

Lemma cleanup_no_config (connected : list string) :
  Forall (λ ev, is_request ev || is_read ev = false) (cleanup connected).
Proof. induction connected; by constructor. Qed.

Ltac no_config :=
  apply config_events_none;
  repeat first [ apply cleanup_no_config
               | apply Forall_app; split
               | apply Forall_cons; split; [done|]
               | apply Forall_nil_2 ].

Lemma issued_config_events (t : list Event) :
  config_events (issued t) = take 1 (config_events t).
Proof.
  unfold config_events. induction t as [|ev t IH]; [done|].
  cbn [issued]. destruct (is_request ev || is_read ev) eqn:Hev;
    rewrite !filter_cons; destruct (decide _) as [Hyes | Hno].
  - done.
  - by rewrite Hev in Hno.
  - by rewrite Hev in Hyes.
  - exact IH.
Qed.

Lemma settled_config_events (t : list Event) :
  config_events (settled t) = drop 1 (config_events t).
Proof.
  unfold config_events. induction t as [|ev t IH]; [done|].
  cbn [settled]. destruct (is_request ev || is_read ev) eqn:Hev;
    rewrite filter_cons; destruct (decide _) as [Hyes | Hno].
  - done.
  - by rewrite Hev in Hno.
  - by rewrite Hev in Hyes.
  - exact IH.
Qed.

Lemma loadConfig_config_events (w : World) (apiKey : option string) :
  config_events (loadConfig apiKey w).1 =
  if truthy apiKey
  then [HttpGet (CLIENT_API_URL w +:+ "/servers")
          ("Bearer " +:+ default "" apiKey)]
  else [ReadFile (configPath w)].
Proof.
  destruct (truthy apiKey) eqn:Hkey.
  - rewrite (loadConfig_keyed_unfold _ _ Hkey).
    pose proof (authenticate_trace w (default "" apiKey)) as Ht.
    destruct (authenticateAndGetServers _ w) as [t [s | e]];
      simpl in *; subst t; done.
  - rewrite (loadConfig_file_run _ _ Hkey).
    destruct (readFile w _) as [e | contents]; [done|].
    by destruct (JSON_parse w contents).
Qed.

(** The call of [createServer] issues the request or the file read of
    [loadConfig]; nothing that follows issues another. *)
Lemma createServer_start_config_events (w : World) (apiKey : option string) :
  config_events (createServer_start w apiKey) =
  config_events (loadConfig apiKey w).1.
Proof.
  unfold createServer_start.
  rewrite issued_config_events, loadConfig_config_events.
  by destruct (truthy apiKey).
Qed.

Lemma createServer_step_config_events (w : World) (apiKey : option string)
    (s : Startup) :
  config_events (createServer_step w apiKey s).1 = [].
Proof.
  destruct s as [|[|d todo] connected|connected|e]; simpl; try done.
  - pose proof (settled_config_events (loadConfig apiKey w).1) as Hs.
    rewrite loadConfig_config_events in Hs.
    destruct (loadConfig apiKey w) as [t [config | e]]; simpl in *;
      rewrite Hs; by destruct (truthy apiKey).
  - by destruct (backend_reachable w (name d)).
Qed.

(** The configuration events of a process are those of one call of
    [loadConfig]. *)
Lemma stdio_config_events (w : World) (ins : list Stdio.Input) :
  let st := Stdio.run w (Stdio.init w) ins in
  config_events (Stdio.trace st) =
  config_events (loadConfig (Stdio.apiKey w) w).1.
Proof.
  unfold Stdio.run. induction ins as [|i ins IH] using rev_ind.
  { apply createServer_start_config_events. }
  rewrite foldl_app. simpl.
  set (prev := foldl (Stdio.step w) (Stdio.init w) ins) in *.
  unfold Stdio.step. destruct (Stdio.status prev); [|done..].
  destruct i.
  - pose proof (createServer_step_config_events w (Stdio.apiKey w)
                  (Stdio.startup prev)) as Hev.
    destruct (createServer_step w (Stdio.apiKey w) _) as [t s].
    simpl in Hev.
    destruct s as [|todo connected|connected|e]; simpl.
    + by apply config_events_extend.
    + by apply config_events_extend.
    + destruct (Stdio.sigint_handler prev); [done|].
      destruct (server_connect w 0); simpl;
        (apply config_events_extend; [done|]);
        rewrite ?config_events_app, Hev; simpl; no_config.
    + apply config_events_extend; [done|].
      rewrite config_events_app, Hev. simpl. no_config.
  - destruct (Stdio.sigint_handler prev) as [connected|]; simpl; [|done].
    apply config_events_extend; [done | no_config].
Qed.

Lemma sse_config_events (w : World) (ins : list Sse.Input) :
  let st := Sse.run w (Sse.init w) ins in
  config_events (Sse.trace st) =
  config_events (loadConfig (Sse.apiKey w) w).1.
Proof.
  unfold Sse.run. induction ins as [|i ins IH] using rev_ind.
  { simpl. apply config_events_extend;
      [apply createServer_start_config_events | no_config]. }
  rewrite foldl_app. simpl.
  set (prev := foldl (Sse.step w) (Sse.init w) ins) in *.
  unfold Sse.step, Sse.log, Sse.exit, Sse.reject.
  destruct (Sse.status prev); [|done..].
  destruct i as [| |res|body rejection|].
  - pose proof (createServer_step_config_events w (Sse.apiKey w)
                  (Sse.startup prev)) as Hev.
    destruct (createServer_step w (Sse.apiKey w) _) as [t s].
    simpl in Hev.
    destruct s as [|todo connected|connected|e]; simpl;
      (apply config_events_extend; [done|]);
      rewrite ?config_events_app, Hev; simpl; try done; no_config.
  - destruct (Sse.cleanupFunction prev) as [connected|]; simpl;
      (apply config_events_extend; [done | no_config]).
  - destruct (Sse.routes prev); [destruct (server_connect w res)|]; simpl;
      (apply config_events_extend; [done | no_config]).
  - destruct (Sse.routes prev);
      [destruct (Sse.transport prev); [destruct rejection|]|]; simpl;
      (apply config_events_extend; [done | no_config]).
  - destruct (Sse.onclose prev); [case_bool_decide|]; simpl; [| |done];
      (apply config_events_extend; [done | no_config]).
Qed.

(** X14: under every schedule, the requests to the resolver and the file
    reads of a bootstrap are those of one call [loadConfig(MCP_API_KEY)],
    issued when the process starts: with a non-empty key the process sends
    that one request, never twice, and never reads the configuration file;
    with the key unset or empty it reads the one file and never contacts
    the resolver. *)
Theorem bootstrap_config_source (w : World) :
  let once := if truthy (process_env w "MCP_API_KEY")
              then [HttpGet (CLIENT_API_URL w +:+ "/servers")
                      ("Bearer " +:+ default "" (process_env w "MCP_API_KEY"))]
              else [ReadFile (configPath w)] in
  (∀ ins, config_events (Stdio.trace (Stdio.run w (Stdio.init w) ins)) = once) ∧
  (∀ ins, config_events (Sse.trace (Sse.run w (Sse.init w) ins)) = once).
Proof.
  intros once. split; intros ins.
  - pose proof (stdio_config_events w ins) as Hev.
    rewrite loadConfig_config_events in Hev. exact Hev.
  - pose proof (sse_config_events w ins) as Hev.
    rewrite loadConfig_config_events in Hev. exact Hev.
Qed.

Lemma bootstrap_config_source_witness :
  let w := with_resolver (inl (AxiosError (Some 401) "Request failed")) in
  config_events (Stdio.trace (Stdio.run w (Stdio.init w) [Stdio.Sigint])) =
  [HttpGet "http://localhost:8000/api/servers" "Bearer k-123"].
Proof.
  intros w.
  exact (proj1 (bootstrap_config_source w) [Stdio.Sigint]).
Defined.
